(** * Recursive radix-2 FFT ([fft_recursivo.py]): embedding and properties

    The transform of [fft_recursivo.py] is embedded over exact complex
    arithmetic: a complex sample is a pair of real numbers of the Standard
    Library, so every equation below is an equation of exact arithmetic
    (rounding of double-precision components is not modelled).  Python's
    exception is an explicit outcome, and the call stack is a fuel argument
    that counts nested calls. *)

From Stdlib Require Import String.
From Stdlib Require Import Reals Lra Lia List Arith PeanoNat.
From Stdlib Require QArith ZArith.
Import ListNotations.

Open Scope R_scope.

(** ** Complex numbers *)

Record C : Type := mkC { Re : R; Im : R }.

Declare Scope C_scope.
Delimit Scope C_scope with C.
Bind Scope C_scope with C.

Definition RtoC (r : R) : C := mkC r 0.
Definition Czero : C := RtoC 0.
Definition Cone : C := RtoC 1.

Definition Cadd (a b : C) : C := mkC (Re a + Re b) (Im a + Im b).
Definition Copp (a : C) : C := mkC (- Re a) (- Im a).
Definition Csub (a b : C) : C := mkC (Re a - Re b) (Im a - Im b).
Definition Cmul (a b : C) : C :=
  mkC (Re a * Re b - Im a * Im b) (Re a * Im b + Im a * Re b).
Definition Cdiv (a b : C) : C :=
  mkC ((Re a * Re b + Im a * Im b) / (Re b * Re b + Im b * Im b))
      ((Im a * Re b - Re a * Im b) / (Re b * Re b + Im b * Im b)).

(** [np.exp] on a complex argument. *)
Definition Cexp (z : C) : C :=
  mkC (exp (Re z) * cos (Im z)) (exp (Re z) * sin (Im z)).

(** The point of the unit circle at angle [t]. *)
Definition cis (t : R) : C := mkC (cos t) (sin t).

(** Squared magnitude, [abs(z)**2]. *)
Definition Cnorm2 (z : C) : R := Re z * Re z + Im z * Im z.

Infix "+" := Cadd : C_scope.
Infix "-" := Csub : C_scope.
Infix "*" := Cmul : C_scope.
Infix "/" := Cdiv : C_scope.
Notation "- x" := (Copp x) : C_scope.

(** ** Outcomes of a call *)

Inductive exn : Type :=
| ValueError (msg : string).

Inductive res (A : Type) : Type :=
| Return (a : A)
| Raise (e : exn).
Arguments Return {A} a.
Arguments Raise {A} e.

(** A computation of a call-depth budget: [None] when the budget of nested
    calls is used up, [Some (Raise e)] when the exception [e] propagates,
    [Some (Return v)] when the value [v] is returned. *)
Definition M (A : Type) : Type := option (res A).

Definition ret {A} (a : A) : M A := Some (Return a).
Definition raise {A} (e : exn) : M A := Some (Raise e).
Definition lift {A} (r : res A) : M A := Some r.

Definition bind {A B} (m : M A) (k : A -> M B) : M B :=
  match m with
  | None => None
  | Some (Raise e) => Some (Raise e)
  | Some (Return a) => k a
  end.

Notation "x <- m ;; k" := (bind m (fun x => k))
  (at level 61, m at next level, right associativity).

(** ** Sequences: slices and element-wise operations *)

Section Slices.
Context {A : Type}.

(** [l[::2]]: every second element, starting with the first. *)
Fixpoint stride2 (l : list A) : list A :=
  match l with
  | [] => []
  | a :: t => a :: match t with
                   | [] => []
                   | _ :: t' => stride2 t'
                   end
  end.

(** [l[start::2]]. *)
Definition slice2 (start : nat) (l : list A) : list A :=
  stride2 (skipn start l).
End Slices.

Definition map2 {A B D} (f : A -> B -> D) (a : list A) (b : list B) : list D :=
  map (fun p => f (fst p) (snd p)) (combine a b).

Definition broadcast_error : exn :=
  ValueError "operands could not be broadcast together".

(** A binary operator of numpy on two one-dimensional arrays: element by
    element on equal lengths, an array of length one is stretched to the
    other's length, and other lengths raise. *)
Definition np_binop (f : C -> C -> C) (a b : list C) : res (list C) :=
  if (length a =? length b)%nat then Return (map2 f a b)
  else if (length a =? 1)%nat then Return (map (f (hd Czero a)) b)
  else if (length b =? 1)%nat then Return (map (fun u => f u (hd Czero b)) a)
  else Raise broadcast_error.

(** ** The transform *)

Definition size_error : exn :=
  ValueError "Tamanho da entrada deve ser potência de 2.".

(** [np.exp(-2j * np.pi * np.arange(N) / N)] *)
Definition factor (N : nat) : list C :=
  map (fun k : nat =>
         Cexp ((- (mkC 0 2)) * RtoC PI * RtoC (INR k) / RtoC (INR N))%C)
      (seq 0 N).

Fixpoint fft_fuel (fuel : nat) (x : list C) : M (list C) :=
  match fuel with
  | O => None
  | S fuel' =>
      let N := length x in
      if (N <=? 1)%nat then ret x
      else if negb (N mod 2 =? 0)%nat then raise size_error
      else
        X_even <- fft_fuel fuel' (slice2 0 x) ;;
        X_odd <- fft_fuel fuel' (slice2 1 x) ;;
        let factor := factor N in
        t1 <- lift (np_binop Cmul (firstn (N / 2) factor) X_odd) ;;
        lo <- lift (np_binop Cadd X_even t1) ;;
        t2 <- lift (np_binop Cmul (firstn (N / 2) factor) X_odd) ;;
        hi <- lift (np_binop Csub X_even t2) ;;
        ret (lo ++ hi)
  end.

(** The call [fft(x)]: the budget [S (length x)] is never used up
    (see [fft_fuel_enough]). *)
Definition fft (x : list C) : M (list C) := fft_fuel (S (length x)) x.

(** ** The specification's notions *)

(** Sum of a sequence of complex values. *)
Definition Csum (l : list C) : C := fold_right Cadd Czero l.

(** [Σ_{n=0}^{N-1} x[n] · exp(-2πi·j·n/N)], with [N] the length of [x]. *)
Definition dft_coeff (x : list C) (j : nat) : C :=
  Csum (map (fun n : nat =>
               (nth n x Czero *
                Cexp (mkC 0 (- (2 * PI * INR j * INR n / INR (length x)))))%C)
            (seq 0 (length x))).

(** The discrete Fourier transform of [x], coefficient by coefficient. *)
Definition dft (x : list C) : list C :=
  map (dft_coeff x) (seq 0 (length x)).

(** [a·x] and [x + y] on sequences. *)
Definition scale (a : C) (x : list C) : list C := map (Cmul a) x.
Definition vadd (x y : list C) : list C := map2 Cadd x y.

(** Sum of the squared magnitudes of a sequence. *)
Definition sumsq (l : list C) : R := fold_right Rplus 0 (map Cnorm2 l).

(** The combine step on the two half transforms, as one expression. *)
Definition butterfly (N : nat) (E O : list C) : list C :=
  (map2 Cadd E (map2 Cmul (firstn (N / 2) (factor N)) O) ++
   map2 Csub E (map2 Cmul (firstn (N / 2) (factor N)) O))%list.

(** The inputs of the calls that [fft x] makes itself (lines 12 and 13). *)
Inductive subcall : list C -> list C -> Prop :=
| subcall_even x :
    (1 < length x)%nat -> (length x mod 2 = 0)%nat -> subcall (slice2 0 x) x
| subcall_odd x :
    (1 < length x)%nat -> (length x mod 2 = 0)%nat -> subcall (slice2 1 x) x.

(** [calls x y]: the call [fft x] leads, through nested calls, to [fft y]. *)
Inductive calls (x : list C) : list C -> Prop :=
| calls_here : calls x x
| calls_deeper y z : calls x y -> subcall z y -> calls x z.

(** ** Further notions used to describe the transform *)

(** The largest finite double-precision number. *)
Definition max_double : R := (2 ^ 53 - 1) * 2 ^ 971.

(** The unit impulse of [N] samples: [[1, 0, ..., 0]]. *)
Definition impulse (N : nat) : list C :=
  match N with
  | O => []
  | S n => Cone :: repeat Czero n
  end.

(** ** The exercises [pisolg.py], [rec_soma.py], [rec_soma_esqdir.py]

    Python integers are unbounded: they are [Z].  A list of integers is a
    [list Z].  The call stack is a number of frames still available; a call
    with no frame left raises [RecursionError]. *)

Inductive pyexn : Type :=
| Exception (msg : string)
| IndexError
| RecursionError.

Inductive outcome (A : Type) : Type :=
| Value (a : A)
| Fails (e : pyexn).
Arguments Value {A} a.
Arguments Fails {A} e.

Definition and_then {A B} (m : outcome A) (k : A -> outcome B) : outcome B :=
  match m with
  | Value a => k a
  | Fails e => Fails e
  end.

Section Exercises.
Local Open Scope Z_scope.

(** [A[i]] on a list: a negative index counts from the end, and an index
    outside the list raises [IndexError]. *)
Definition getitem (A : list Z) (i : Z) : outcome Z :=
  let len := Z.of_nat (length A) in
  let j := if i <? 0 then i + len else i in
  if ((j <? 0) || (len <=? j))%bool then Fails IndexError
  else Value (nth (Z.to_nat j) A 0).

(** [sum(l)]. *)
Definition zsum (l : list Z) : Z := fold_right Z.add 0 l.

(** [rec_soma(n, A)] with [depth] frames available. *)
Fixpoint rec_soma (depth : nat) (n : Z) (A : list Z) : outcome Z :=
  match depth with
  | O => Fails RecursionError
  | S depth' =>
      if n =? 0 then getitem A n
      else
        and_then (rec_soma depth' (n - 1) A) (fun r =>
        and_then (getitem A n) (fun a =>
        Value (r + a)))
  end.

(** [rec_soma_esqdir(k, n, A)] with [depth] frames available. *)
Fixpoint rec_soma_esqdir (depth : nat) (k n : Z) (A : list Z) : outcome Z :=
  match depth with
  | O => Fails RecursionError
  | S depth' =>
      if k >? n then Value 0
      else
        and_then (rec_soma_esqdir depth' (k + 1) n A) (fun r =>
        and_then (getitem A k) (fun a =>
        Value (r + a)))
  end.

(** The test [n <= N/2] of [pisolg]: [N/2] is Python's true division,
    taken here as the exact quotient, which it is for an integer [N] of
    magnitude below [2 ^ 53]. *)
Definition pisolg_test (n N : Z) : bool :=
  QArith_base.Qle_bool
    (QArith_base.inject_Z n)
    (QArith_base.Qdiv (QArith_base.inject_Z N) (QArith_base.inject_Z 2)).

(** The [while] loop of [pisolg], for at most [fuel] tests of its
    condition; [None] when the loop is still running after them. *)
Fixpoint pisolg_loop (fuel : nat) (N n i : Z) : option Z :=
  match fuel with
  | O => None
  | S fuel' =>
      if pisolg_test n N then pisolg_loop fuel' N (n * 2) (i + 1)
      else Some i
  end.

Definition pisolg (fuel : nat) (N : Z) : option (outcome Z) :=
  let n := 1 in
  let i := 0 in
  if N <=? 0 then Some (Fails (Exception "Value has to be positive"))
  else
    match pisolg_loop fuel N n i with
    | Some i' => Some (Value i')
    | None => None
    end.

End Exercises.

(** ** Lists: slices *)

Section SliceFacts.
Context {A : Type}.

Lemma list_ind2 (P : list A -> Prop) :
  P [] -> (forall a, P [a]) -> (forall a b l, P l -> P (a :: b :: l)) ->
  forall l, P l.
Proof.
  intros H0 H1 H2.
  assert (H : forall l, P l /\ forall a, P (a :: l)).
  { induction l as [|b l [IH1 IH2]]; split; auto. }
  intro l. apply H.
Qed.

Lemma stride2_cons2 (a b : A) l : stride2 (a :: b :: l) = a :: stride2 l.
Proof. reflexivity. Qed.

Lemma slice2_0 (l : list A) : slice2 0 l = stride2 l.
Proof. reflexivity. Qed.

Lemma slice2_1_cons (a : A) l : slice2 1 (a :: l) = stride2 l.
Proof. reflexivity. Qed.

Lemma stride2_length (l : list A) :
  length (stride2 l) = (S (length l) / 2)%nat.
Proof.
  induction l as [| a | a b l IH] using list_ind2; try reflexivity.
  rewrite stride2_cons2. cbn [length]. rewrite IH.
  replace (S (S (S (length l)))) with (S (length l) + 1 * 2)%nat by lia.
  rewrite Nat.div_add by lia. lia.
Qed.

Lemma slice2_0_length (l : list A) :
  length (slice2 0 l) = (S (length l) / 2)%nat.
Proof. apply stride2_length. Qed.

Lemma slice2_1_length (l : list A) :
  length (slice2 1 l) = (length l / 2)%nat.
Proof.
  destruct l as [|a l]; [reflexivity|].
  rewrite slice2_1_cons, stride2_length. reflexivity.
Qed.

Lemma even_halves (l : list A) :
  (length l mod 2 = 0)%nat ->
  length (slice2 0 l) = (length l / 2)%nat /\
  length (slice2 1 l) = (length l / 2)%nat.
Proof.
  intro H. rewrite slice2_0_length, slice2_1_length. split; [|reflexivity].
  pose proof (Nat.div_mod_eq (length l) 2) as E.
  pose proof (Nat.div_mod_eq (S (length l)) 2) as E'.
  pose proof (Nat.mod_upper_bound (S (length l)) 2) as B.
  lia.
Qed.

Lemma nth_stride2 (d : A) (l : list A) n :
  nth n (stride2 l) d = nth (2 * n) l d.
Proof.
  revert n. induction l as [| a | a b l IH] using list_ind2; intro n.
  - destruct n; reflexivity.
  - destruct n as [|n]; [reflexivity|].
    cbn [stride2]. replace (2 * S n)%nat with (S (S (2 * n))) by lia.
    cbn [nth]. destruct n; reflexivity.
  - rewrite stride2_cons2. destruct n as [|n]; [reflexivity|].
    replace (2 * S n)%nat with (S (S (2 * n))) by lia.
    cbn [nth]. apply IH.
Qed.

Lemma nth_slice2_0 (d : A) (l : list A) n :
  nth n (slice2 0 l) d = nth (2 * n) l d.
Proof. apply nth_stride2. Qed.

Lemma nth_slice2_1 (d : A) (l : list A) n :
  nth n (slice2 1 l) d = nth (2 * n + 1) l d.
Proof.
  destruct l as [|a l].
  - replace (2 * n + 1)%nat with (S (2 * n)) by lia. destruct n; reflexivity.
  - rewrite slice2_1_cons, nth_stride2.
    replace (2 * n + 1)%nat with (S (2 * n)) by lia. reflexivity.
Qed.
End SliceFacts.

(** ** Element-wise operations *)

Lemma map2_length {A B D} (f : A -> B -> D) a b :
  length (map2 f a b) = Nat.min (length a) (length b).
Proof. unfold map2. rewrite length_map, length_combine. reflexivity. Qed.

Lemma nth_map2 {A B D} (f : A -> B -> D) a b n da db d :
  (n < length a)%nat -> (n < length b)%nat ->
  nth n (map2 f a b) d = f (nth n a da) (nth n b db).
Proof.
  revert b n. induction a as [|u a IH]; intros [|v b] [|n] Ha Hb;
    cbn [length] in *; try lia; [reflexivity|].
  change (nth n (map2 f a b) d = f (nth n a da) (nth n b db)).
  apply IH; lia.
Qed.

Lemma np_binop_same f a b :
  length a = length b -> np_binop f a b = Return (map2 f a b).
Proof. intro H. unfold np_binop. rewrite H, Nat.eqb_refl. reflexivity. Qed.

Lemma factor_length N : length (factor N) = N.
Proof. unfold factor. rewrite length_map, length_seq. reflexivity. Qed.

Lemma twiddles_length N : length (firstn (N / 2) (factor N)) = (N / 2)%nat.
Proof.
  rewrite length_firstn, factor_length.
  pose proof (Nat.div_mod_eq N 2). lia.
Qed.

Lemma butterfly_length N E O :
  (N mod 2 = 0)%nat -> length E = (N / 2)%nat -> length O = (N / 2)%nat ->
  length (butterfly N E O) = N.
Proof.
  intros Hev HE HO. unfold butterfly.
  rewrite length_app, !map2_length, twiddles_length, HE, HO.
  pose proof (Nat.div_mod_eq N 2). lia.
Qed.

(** ** One call of [fft], case by case *)

Lemma fft_fuel_base f x :
  (length x <= 1)%nat -> fft_fuel (S f) x = Some (Return x).
Proof.
  intro H. cbn [fft_fuel]. apply Nat.leb_le in H. rewrite H. reflexivity.
Qed.

Lemma fft_fuel_odd f x :
  (1 < length x)%nat -> (length x mod 2 <> 0)%nat ->
  fft_fuel (S f) x = Some (Raise size_error).
Proof.
  intros H1 H2. cbn [fft_fuel].
  apply Nat.leb_gt in H1. rewrite H1.
  apply Nat.eqb_neq in H2. rewrite H2. reflexivity.
Qed.

Lemma fft_fuel_even f x :
  (1 < length x)%nat -> (length x mod 2 = 0)%nat ->
  fft_fuel (S f) x =
    (X_even <- fft_fuel f (slice2 0 x) ;;
     X_odd <- fft_fuel f (slice2 1 x) ;;
     t1 <- lift (np_binop Cmul (firstn (length x / 2) (factor (length x))) X_odd) ;;
     lo <- lift (np_binop Cadd X_even t1) ;;
     t2 <- lift (np_binop Cmul (firstn (length x / 2) (factor (length x))) X_odd) ;;
     hi <- lift (np_binop Csub X_even t2) ;;
     ret (lo ++ hi)).
Proof.
  intros H1 H2. cbn [fft_fuel].
  apply Nat.leb_gt in H1. rewrite H1.
  apply Nat.eqb_eq in H2. rewrite H2. reflexivity.
Qed.

Lemma combine_returns N E O :
  length E = (N / 2)%nat -> length O = (N / 2)%nat ->
  (t1 <- lift (np_binop Cmul (firstn (N / 2) (factor N)) O) ;;
   lo <- lift (np_binop Cadd E t1) ;;
   t2 <- lift (np_binop Cmul (firstn (N / 2) (factor N)) O) ;;
   hi <- lift (np_binop Csub E t2) ;;
   ret (lo ++ hi)) = Some (Return (butterfly N E O)).
Proof.
  intros HE HO.
  assert (Ht : length (map2 Cmul (firstn (N / 2) (factor N)) O) = length E).
  { rewrite map2_length, twiddles_length, HO, HE. lia. }
  rewrite (np_binop_same Cmul) by (rewrite twiddles_length; congruence).
  cbn [lift bind].
  rewrite !np_binop_same by congruence.
  reflexivity.
Qed.

Lemma fft_fuel_step f x E O :
  (1 < length x)%nat -> (length x mod 2 = 0)%nat ->
  fft_fuel f (slice2 0 x) = Some (Return E) ->
  fft_fuel f (slice2 1 x) = Some (Return O) ->
  length E = (length x / 2)%nat -> length O = (length x / 2)%nat ->
  fft_fuel (S f) x = Some (Return (butterfly (length x) E O)).
Proof.
  intros H1 H2 HE HO LE LO.
  rewrite fft_fuel_even, HE, HO by assumption. cbn [bind].
  apply combine_returns; assumption.
Qed.

(** Whatever a call yields within its budget is the size error or a
    sequence as long as its input: the element-wise operations never see
    operands of different lengths. *)
Lemma fft_fuel_outcome f : forall x r,
  fft_fuel f x = Some r ->
  r = Raise size_error \/ exists X, r = Return X /\ length X = length x.
Proof.
  induction f as [|f IH]; intros x r H; [discriminate|].
  destruct (Nat.le_gt_cases (length x) 1) as [Hb|Hb].
  { rewrite fft_fuel_base in H by assumption. injection H as <-. eauto. }
  destruct (Nat.eq_dec (length x mod 2) 0) as [Hev|Hodd].
  2:{ rewrite fft_fuel_odd in H by assumption. injection H as <-. auto. }
  destruct (even_halves x Hev) as [L0 L1].
  rewrite fft_fuel_even in H by assumption.
  destruct (fft_fuel f (slice2 0 x)) as [[E|e]|] eqn:HE; cbn [bind] in H;
    [| |discriminate].
  2:{ injection H as <-. destruct (IH _ _ HE) as [G|[X [G _]]];
      [auto|discriminate]. }
  destruct (fft_fuel f (slice2 1 x)) as [[O|e]|] eqn:HO; cbn [bind] in H;
    [| |discriminate].
  2:{ injection H as <-. destruct (IH _ _ HO) as [G|[X [G _]]];
      [auto|discriminate]. }
  destruct (IH _ _ HE) as [G|[X [G LE]]]; [discriminate|].
  injection G as <-.
  destruct (IH _ _ HO) as [G|[X [G LO]]]; [discriminate|].
  injection G as <-.
  rewrite combine_returns in H by congruence.
  injection H as <-. right. eexists. split; [reflexivity|].
  apply butterfly_length; congruence.
Qed.

(** A larger budget does not change the outcome. *)
Lemma fft_fuel_mono f : forall f' x r,
  (f <= f')%nat -> fft_fuel f x = Some r -> fft_fuel f' x = Some r.
Proof.
  induction f as [|f IH]; intros f' x r Hle H; [discriminate|].
  destruct f' as [|f']; [lia|].
  destruct (Nat.le_gt_cases (length x) 1) as [Hb|Hb].
  { rewrite fft_fuel_base in * by assumption. assumption. }
  destruct (Nat.eq_dec (length x mod 2) 0) as [Hev|Hodd].
  2:{ rewrite fft_fuel_odd in * by assumption. assumption. }
  rewrite fft_fuel_even in * by assumption.
  destruct (fft_fuel f (slice2 0 x)) as [[E|e]|] eqn:HE; cbn [bind] in H;
    [| |discriminate];
    rewrite (IH f' _ _ ltac:(lia) HE); cbn [bind]; [|assumption].
  destruct (fft_fuel f (slice2 1 x)) as [[O|e]|] eqn:HO; cbn [bind] in H;
    [| |discriminate];
    rewrite (IH f' _ _ ltac:(lia) HO); cbn [bind]; assumption.
Qed.

(** A budget of [S f] nested calls is enough for every input of at most
    [2 ^ f] samples. *)
Lemma fft_fuel_enough f : forall x,
  (length x <= 2 ^ f)%nat -> exists r, fft_fuel (S f) x = Some r.
Proof.
  induction f as [|f IH]; intros x Hx.
  { cbn in Hx. rewrite fft_fuel_base by assumption. eauto. }
  destruct (Nat.le_gt_cases (length x) 1) as [Hb|Hb].
  { rewrite fft_fuel_base by assumption. eauto. }
  destruct (Nat.eq_dec (length x mod 2) 0) as [Hev|Hodd].
  2:{ rewrite fft_fuel_odd by assumption. eauto. }
  destruct (even_halves x Hev) as [L0 L1].
  assert (Hh : (length x / 2 <= 2 ^ f)%nat).
  { apply Nat.Div0.div_le_upper_bound. rewrite Nat.pow_succ_r' in Hx. lia. }
  rewrite fft_fuel_even by assumption.
  destruct (IH (slice2 0 x)) as [[E|e] HE]; [lia| |];
    rewrite HE; cbn [bind]; [|eauto].
  destruct (IH (slice2 1 x)) as [[O|e] HO]; [lia| |];
    rewrite HO; cbn [bind]; [|eauto].
  destruct (fft_fuel_outcome _ _ _ HE) as [G|[X [G LE]]]; [discriminate|].
  injection G as <-.
  destruct (fft_fuel_outcome _ _ _ HO) as [G|[X [G LO]]]; [discriminate|].
  injection G as <-.
  rewrite combine_returns by congruence. eauto.
Qed.

(** ** Complex arithmetic *)

Lemma C_eq (a b : C) : Re a = Re b -> Im a = Im b -> a = b.
Proof. destruct a, b; cbn; intros -> ->; reflexivity. Qed.

Ltac Cunfold :=
  unfold Cone, Czero, RtoC, Cadd, Csub, Cmul, Copp, Cnorm2 in *; cbn [Re Im] in *.

(** Equations of the complex ring, component by component. *)
Ltac Cring :=
  intros;
  repeat match goal with z : C |- _ => destruct z end;
  Cunfold; try (apply C_eq; cbn [Re Im]); ring.

Lemma Cadd_assoc a b c : (a + (b + c))%C = (a + b + c)%C.
Proof. Cring. Qed.

Lemma Cmul_0_r a : (a * Czero)%C = Czero.
Proof. Cring. Qed.

Lemma Cmul_1_l a : (Cone * a)%C = a.
Proof. Cring. Qed.

Lemma Cexp_imaginary t : Cexp (mkC 0 t) = cis t.
Proof. unfold Cexp, cis. cbn [Re Im]. rewrite exp_0. apply C_eq; cbn; ring. Qed.

Lemma cis_0 : cis 0 = Cone.
Proof. unfold cis. rewrite cos_0, sin_0. reflexivity. Qed.

Lemma cis_add a b : cis (a + b) = (cis a * cis b)%C.
Proof.
  unfold cis, Cmul. cbn [Re Im]. rewrite cos_plus, sin_plus.
  apply C_eq; cbn [Re Im]; ring.
Qed.

Lemma cis_period t (m : nat) : cis (t - 2 * PI * INR m) = cis t.
Proof.
  unfold cis.
  rewrite <- (cos_period (t - 2 * PI * INR m) m).
  rewrite <- (sin_period (t - 2 * PI * INR m) m).
  replace (t - 2 * PI * INR m + 2 * INR m * PI) with t by ring.
  reflexivity.
Qed.

Lemma cis_half_turn t : cis (t - PI) = (- cis t)%C.
Proof.
  unfold cis, Copp. cbn [Re Im].
  rewrite cos_minus, sin_minus, cos_PI, sin_PI.
  apply C_eq; cbn [Re Im]; ring.
Qed.

Lemma cis_norm2 t : Cnorm2 (cis t) = 1.
Proof.
  unfold Cnorm2, cis. cbn [Re Im].
  pose proof (sin2_cos2 t) as H. unfold Rsqr in H. lra.
Qed.

(** The twiddle factor that the code computes at index [k]. *)
Lemma twiddle_arg (k N : nat) :
  (0 < N)%nat ->
  ((- (mkC 0 2)) * RtoC PI * RtoC (INR k) / RtoC (INR N))%C
  = mkC 0 (- (2 * PI * INR k / INR N)).
Proof.
  intro HN. assert (INR N <> 0) by (apply not_0_INR; lia).
  unfold Cdiv, Cmul, Copp, RtoC. cbn [Re Im].
  apply C_eq; cbn [Re Im]; field; assumption.
Qed.

Lemma nth_seq_map {A} (f : nat -> A) (N k : nat) (d : A) :
  (k < N)%nat -> nth k (map f (seq 0 N)) d = f k.
Proof.
  intro H. rewrite (nth_indep _ d (f 0%nat))
    by (rewrite length_map, length_seq; assumption).
  rewrite map_nth, seq_nth by assumption. reflexivity.
Qed.

Lemma nth_factor (N k : nat) :
  (k < N)%nat -> nth k (factor N) Czero = cis (- (2 * PI * INR k / INR N)).
Proof.
  intro H. unfold factor. rewrite nth_seq_map by assumption.
  rewrite twiddle_arg by lia. apply Cexp_imaginary.
Qed.

Lemma nth_twiddles (N k : nat) :
  (k < N / 2)%nat ->
  nth k (firstn (N / 2) (factor N)) Czero = cis (- (2 * PI * INR k / INR N)).
Proof.
  intro H. rewrite nth_firstn.
  apply Nat.ltb_lt in H as H'. rewrite H'.
  apply nth_factor. pose proof (Nat.div_mod_eq N 2). lia.
Qed.

(** ** Sums *)

Lemma Csum_nil : Csum [] = Czero.
Proof. reflexivity. Qed.

Lemma Csum_cons a l : Csum (a :: l) = (a + Csum l)%C.
Proof. reflexivity. Qed.

Lemma Csum_app l l' : Csum (l ++ l') = (Csum l + Csum l')%C.
Proof.
  induction l as [|a l IH]; cbn [app].
  - rewrite Csum_nil. Cring.
  - rewrite !Csum_cons, IH. apply Cadd_assoc.
Qed.

Lemma Csum_scale {A} (c : C) (f : A -> C) l :
  Csum (map (fun n => (c * f n)%C) l) = (c * Csum (map f l))%C.
Proof.
  induction l as [|a l IH]; cbn [map].
  - rewrite Csum_nil. symmetry. apply Cmul_0_r.
  - rewrite !Csum_cons, IH. Cring.
Qed.

Lemma Csum_add {A} (f g : A -> C) l :
  Csum (map (fun n => (f n + g n)%C) l)
  = (Csum (map f l) + Csum (map g l))%C.
Proof.
  induction l as [|a l IH]; cbn [map].
  - rewrite Csum_nil. Cring.
  - rewrite !Csum_cons, IH. Cring.
Qed.

Lemma Csum_ext (f g : nat -> C) N :
  (forall n, (n < N)%nat -> f n = g n) ->
  Csum (map f (seq 0 N)) = Csum (map g (seq 0 N)).
Proof.
  intro H. f_equal. apply map_ext_in. intros n Hn.
  apply in_seq in Hn. apply H. lia.
Qed.

(** A sum over [0..2M-1] is the sum over the even indices plus the sum
    over the odd indices. *)
Lemma Csum_even_odd (f : nat -> C) M :
  Csum (map f (seq 0 (2 * M)))
  = (Csum (map (fun m => f (2 * m)%nat) (seq 0 M))
     + Csum (map (fun m => f (2 * m + 1)%nat) (seq 0 M)))%C.
Proof.
  induction M as [|M IH].
  - change (2 * 0)%nat with 0%nat. cbn [seq map]. rewrite Csum_nil. Cring.
  - replace (2 * S M)%nat with (S (S (2 * M))) by lia.
    rewrite !seq_S, !map_app, !Csum_app, IH. cbn [map Nat.add].
    replace (S (2 * M)) with (2 * M + 1)%nat by lia.
    rewrite !Csum_cons, !Csum_nil.
    generalize (Csum (map (fun m => f (2 * m)%nat) (seq 0 M))).
    generalize (Csum (map (fun m => f (2 * m + 1)%nat) (seq 0 M))).
    generalize (f (2 * M)%nat) (f (2 * M + 1)%nat).
    Cring.
Qed.

(** ** The decimation-in-time recurrence of the DFT *)

Lemma dft_coeff_cis x j :
  dft_coeff x j =
  Csum (map (fun n : nat =>
               (nth n x Czero *
                cis (- (2 * PI * INR j * INR n / INR (length x))))%C)
            (seq 0 (length x))).
Proof.
  unfold dft_coeff. f_equal. apply map_ext. intro n.
  rewrite Cexp_imaginary. reflexivity.
Qed.

Lemma dft_length x : length (dft x) = length x.
Proof. unfold dft. rewrite length_map, length_seq. reflexivity. Qed.

Lemma nth_dft x j :
  (j < length x)%nat -> nth j (dft x) Czero = dft_coeff x j.
Proof. intro H. unfold dft. apply nth_seq_map. assumption. Qed.

Section Recurrence.
Variables (x : list C) (M : nat).
Hypothesis HM : (0 < M)%nat.
Hypothesis Hx : length x = (2 * M)%nat.

Let ev := slice2 0 x.
Let od := slice2 1 x.

Lemma halves_length : length ev = M /\ length od = M.
Proof.
  subst ev od. rewrite slice2_0_length, slice2_1_length, Hx.
  replace (S (2 * M)) with (1 + M * 2)%nat by lia.
  replace (2 * M)%nat with (0 + M * 2)%nat by lia.
  rewrite !Nat.div_add by lia. cbn. lia.
Qed.

Lemma INR_M_neq : INR M <> 0.
Proof. apply not_0_INR. lia. Qed.

(** The coefficient [j + s * M] of the whole sequence from the
    coefficients [j] of the halves; [s] is 0 for the lower half of the
    output and 1 for the upper half. *)
Lemma dft_coeff_halves (j s : nat) :
  dft_coeff x (j + s * M) =
  (dft_coeff ev j +
   cis (- (2 * PI * INR j / INR (length x)) - PI * INR s)
   * dft_coeff od j)%C.
Proof.
  destruct halves_length as [Lev Lod]. pose proof INR_M_neq as HMR.
  rewrite !dft_coeff_cis, Lev, Lod, Hx, Csum_even_odd. f_equal.
  - apply Csum_ext. intros m Hm. subst ev. rewrite nth_slice2_0. f_equal.
    rewrite <- (cis_period (- (2 * PI * INR j * INR m / INR M)) (s * m)).
    f_equal. rewrite !mult_INR, plus_INR, mult_INR. cbn [INR].
    field. assumption.
  - rewrite <- Csum_scale. apply Csum_ext. intros m Hm.
    subst od. rewrite nth_slice2_1.
    rewrite <- (cis_period (_ - PI * INR s) (s * m)).
    set (a := nth (2 * m + 1) x Czero).
    replace (- (2 * PI * INR (j + s * M) * INR (2 * m + 1) / INR (2 * M)))
      with ((- (2 * PI * INR j / INR (2 * M)) - PI * INR s
             - 2 * PI * INR (s * m))
            + - (2 * PI * INR j * INR m / INR M)).
    2:{ rewrite !mult_INR, !plus_INR, !mult_INR. cbn [INR].
        field. assumption. }
    rewrite cis_add.
    generalize (cis (- (2 * PI * INR j / INR (2 * M)) - PI * INR s
                     - 2 * PI * INR (s * m))).
    generalize (cis (- (2 * PI * INR j * INR m / INR M))).
    clearbody a. clear. Cring.
Qed.

Lemma dft_coeff_lower (j : nat) :
  dft_coeff x j =
  (dft_coeff ev j
   + cis (- (2 * PI * INR j / INR (length x))) * dft_coeff od j)%C.
Proof.
  pose proof (dft_coeff_halves j 0) as H.
  rewrite Nat.mul_0_l, Nat.add_0_r in H. rewrite H. do 2 f_equal.
  f_equal. cbn [INR]. ring.
Qed.

Lemma dft_coeff_upper (j : nat) :
  dft_coeff x (j + M) =
  (dft_coeff ev j
   - cis (- (2 * PI * INR j / INR (length x))) * dft_coeff od j)%C.
Proof.
  pose proof (dft_coeff_halves j 1) as H.
  rewrite Nat.mul_1_l in H. rewrite H.
  replace (- (2 * PI * INR j / INR (length x)) - PI * INR 1)
    with (- (2 * PI * INR j / INR (length x)) - PI)
    by (cbn [INR]; ring).
  rewrite cis_half_turn.
  generalize (cis (- (2 * PI * INR j / INR (length x)))).
  generalize (dft_coeff ev j) (dft_coeff od j). clear. Cring.
Qed.

(** The combine step applied to the transforms of the halves is the
    transform of the whole. *)
Lemma butterfly_dft : butterfly (length x) (dft ev) (dft od) = dft x.
Proof.
  destruct halves_length as [Lev Lod].
  assert (Hh : (length x / 2 = M)%nat).
  { rewrite Hx, Nat.mul_comm. apply Nat.div_mul. lia. }
  assert (LE : length (dft ev) = M) by (rewrite dft_length; assumption).
  assert (LO : length (dft od) = M) by (rewrite dft_length; assumption).
  assert (LT : length (map2 Cmul (firstn (length x / 2) (factor (length x)))
                         (dft od)) = M)
    by (rewrite map2_length, twiddles_length, LO, Hh; lia).
  assert (HT : forall j, (j < M)%nat ->
            nth j (map2 Cmul (firstn (length x / 2) (factor (length x)))
                     (dft od)) Czero
            = (cis (- (2 * PI * INR j / INR (length x)))
               * dft_coeff od j)%C).
  { intros j Hj.
    rewrite (nth_map2 _ _ _ _ Czero Czero)
      by (rewrite ?twiddles_length; lia).
    rewrite nth_twiddles, nth_dft by lia. reflexivity. }
  assert (LB : length (butterfly (length x) (dft ev) (dft od)) = length x).
  { apply butterfly_length; rewrite ?Hh; try assumption.
    rewrite Hx, Nat.mul_comm. apply Nat.Div0.mod_mul. }
  apply (nth_ext _ _ Czero Czero).
  { rewrite LB, dft_length. reflexivity. }
  intros i Hi. rewrite LB in Hi. unfold butterfly.
  rewrite (nth_dft x) by assumption.
  destruct (Nat.lt_ge_cases i M) as [Hlt|Hge].
  - rewrite app_nth1 by (rewrite map2_length, LE, LT; lia).
    rewrite (nth_map2 _ _ _ _ Czero Czero) by lia.
    rewrite HT, nth_dft by lia. symmetry. apply dft_coeff_lower.
  - rewrite app_nth2 by (rewrite map2_length, LE, LT; lia).
    rewrite map2_length, LE, LT, Nat.min_id.
    rewrite (nth_map2 _ _ _ _ Czero Czero) by lia.
    rewrite HT, nth_dft by lia.
    rewrite <- dft_coeff_upper. f_equal. lia.
Qed.
End Recurrence.

(** ** Inputs whose length is a power of two *)

Lemma pow2_halves k (x : list C) :
  length x = (2 ^ S k)%nat ->
  (1 < length x)%nat /\ (length x mod 2 = 0)%nat /\
  (length x / 2 = 2 ^ k)%nat /\
  length (slice2 0 x) = (2 ^ k)%nat /\ length (slice2 1 x) = (2 ^ k)%nat.
Proof.
  intro H. rewrite Nat.pow_succ_r' in H.
  pose proof (Nat.pow_nonzero 2 k ltac:(lia)) as Hp.
  assert (Hev : (length x mod 2 = 0)%nat)
    by (rewrite H, Nat.mul_comm; apply Nat.Div0.mod_mul).
  assert (Hh : (length x / 2 = 2 ^ k)%nat)
    by (rewrite H, Nat.mul_comm; apply Nat.div_mul; lia).
  destruct (even_halves x Hev) as [L0 L1].
  repeat split; try lia.
Qed.

Lemma dft_singleton c : dft [c] = [c].
Proof.
  unfold dft, dft_coeff. cbn [length seq map nth].
  rewrite Csum_cons, Csum_nil, Cexp_imaginary.
  replace (- (2 * PI * INR 0 * INR 0 / INR 1)) with 0
    by (cbn [INR]; field).
  rewrite cis_0. f_equal. Cring.
Qed.

(** On [2 ^ k] samples, [S k] nested calls compute the transform. *)
Lemma fft_fuel_pow2 k : forall x,
  length x = (2 ^ k)%nat -> fft_fuel (S k) x = Some (Return (dft x)).
Proof.
  induction k as [|k IH]; intros x Hx.
  - destruct x as [|c [|c' x]]; try discriminate.
    rewrite fft_fuel_base by (cbn; lia). rewrite dft_singleton. reflexivity.
  - destruct (pow2_halves k x Hx) as (H1 & Hev & Hh & L0 & L1).
    rewrite (fft_fuel_step _ _ (dft (slice2 0 x)) (dft (slice2 1 x)));
      try (apply IH; assumption); try assumption;
      try (rewrite dft_length; congruence).
    rewrite (butterfly_dft x (2 ^ k)); [reflexivity| |].
    + pose proof (Nat.pow_nonzero 2 k). lia.
    + rewrite Hx, Nat.pow_succ_r'. reflexivity.
Qed.

Lemma fft_pow2 k x :
  length x = (2 ^ k)%nat -> fft x = Some (Return (dft x)).
Proof.
  intro Hx. unfold fft.
  apply (fft_fuel_mono (S k)); [|apply fft_fuel_pow2; assumption].
  pose proof (Nat.pow_gt_lin_r 2 k). lia.
Qed.

(** The budget of [fft] is enough for every input. *)
Lemma fft_budget_enough x : exists r,
  fft x = Some r /\
  forall f, (length x <= 2 ^ f)%nat -> fft_fuel (S f) x = Some r.
Proof.
  destruct (fft_fuel_enough (length x) x) as [r Hr].
  { pose proof (Nat.pow_gt_lin_r 2 (length x)). lia. }
  exists r. split; [exact Hr|].
  intros f Hf. destruct (fft_fuel_enough f x Hf) as [r' Hr'].
  destruct (Nat.le_ge_cases (S f) (S (length x))) as [Hle|Hle].
  - rewrite (fft_fuel_mono _ _ _ _ Hle Hr') in Hr. congruence.
  - apply (fft_fuel_mono _ _ _ _ Hle Hr).
Qed.

(** Every call below an input of [2 ^ k] samples is on [2 ^ j] samples. *)
Lemma calls_pow2 k x y :
  length x = (2 ^ k)%nat -> calls x y ->
  exists j, (j <= k)%nat /\ length y = (2 ^ j)%nat.
Proof.
  intros Hx Hc. induction Hc as [|y z Hc [j [Hj Hy]] Hs].
  - exists k. split; [lia|assumption].
  - destruct j as [|j].
    { inversion Hs; subst; cbn in Hy; lia. }
    destruct (pow2_halves j y Hy) as (_ & _ & _ & L0 & L1).
    exists j. split; [lia|]. inversion Hs; subst; assumption.
Qed.

(** Every number of samples is a power of two times an odd number. *)
Lemma pow2_odd_decomposition n :
  (0 < n)%nat -> exists d m, n = (2 ^ d * m)%nat /\ (m mod 2 = 1)%nat.
Proof.
  induction n as [n IH] using lt_wf_ind. intro Hn.
  pose proof (Nat.div_mod_eq n 2) as E.
  pose proof (Nat.mod_upper_bound n 2 ltac:(lia)) as B.
  destruct (Nat.eq_dec (n mod 2) 0) as [Hev|Hodd].
  - destruct (IH (n / 2)%nat) as (d & m & Hd & Hm); [lia|lia|].
    exists (S d), m. split; [|assumption].
    rewrite Nat.pow_succ_r'. lia.
  - exists 0%nat, n. split; [cbn; lia|lia].
Qed.

(** The leftmost chain of calls: [d] times the even-indexed half. *)
Lemma calls_iter_even d : forall x m,
  length x = (2 ^ d * m)%nat -> (1 < m)%nat ->
  calls x (Nat.iter d (slice2 0) x) /\
  length (Nat.iter d (slice2 0) x) = m.
Proof.
  induction d as [|d IH]; intros x m Hx Hm.
  - cbn in *. split; [constructor|lia].
  - destruct (IH x (2 * m)%nat) as [Hc Hl]; [|lia|].
    { rewrite Hx, Nat.pow_succ_r'. lia. }
    rewrite Nat.iter_succ. set (y := Nat.iter d (slice2 0) x) in *.
    assert (Hev : (length y mod 2 = 0)%nat)
      by (rewrite Hl, Nat.mul_comm; apply Nat.Div0.mod_mul).
    split.
    + apply (calls_deeper x y); [assumption|]. constructor; [lia|assumption].
    + destruct (even_halves y Hev) as [L0 _]. rewrite L0, Hl, Nat.mul_comm.
      apply Nat.div_mul. lia.
Qed.

(** On [2 ^ d * m] samples with [m] odd and greater than one, the size
    error is raised by the call nested [d] levels below the first one. *)
Lemma fft_fuel_raises_at d : forall x m,
  length x = (2 ^ d * m)%nat -> (1 < m)%nat -> (m mod 2 = 1)%nat ->
  forall fuel,
    fft_fuel fuel x = if (fuel <=? d)%nat then None else Some (Raise size_error).
Proof.
  induction d as [|d IH]; intros x m Hx Hm Hodd [|fuel]; try reflexivity.
  - assert (Hl : length x = m) by (cbn in Hx; lia).
    cbn [Nat.leb]. apply fft_fuel_odd; rewrite Hl; lia.
  - rewrite Nat.pow_succ_r' in Hx.
    assert (Hev : (length x mod 2 = 0)%nat).
    { rewrite Hx, <- Nat.mul_assoc, Nat.mul_comm. apply Nat.Div0.mod_mul. }
    assert (H1 : (1 < length x)%nat).
    { pose proof (Nat.pow_nonzero 2 d). nia. }
    destruct (even_halves x Hev) as [L0 _].
    assert (Hh : (length x / 2 = 2 ^ d * m)%nat).
    { rewrite Hx, <- Nat.mul_assoc, Nat.mul_comm. apply Nat.div_mul. lia. }
    rewrite fft_fuel_even by assumption.
    rewrite (IH (slice2 0 x) m) by (assumption || lia).
    change (S fuel <=? S d)%nat with (fuel <=? d)%nat.
    destruct (fuel <=? d)%nat; reflexivity.
Qed.

(** ** Linear combinations of sequences (exact arithmetic) *)

Lemma lincomb_length a b x y :
  length x = length y ->
  length (vadd (scale a x) (scale b y)) = length x.
Proof.
  intro H. unfold vadd, scale. rewrite map2_length, !length_map. lia.
Qed.

Lemma nth_scale a x n : nth n (scale a x) Czero = (a * nth n x Czero)%C.
Proof.
  unfold scale. rewrite <- (Cmul_0_r a) at 1. apply map_nth.
Qed.

Lemma nth_lincomb a b x y n :
  length x = length y -> (n < length x)%nat ->
  nth n (vadd (scale a x) (scale b y)) Czero
  = (a * nth n x Czero + b * nth n y Czero)%C.
Proof.
  intros H Hn. unfold vadd.
  rewrite (nth_map2 _ _ _ _ Czero Czero)
    by (unfold scale; rewrite length_map; lia).
  rewrite !nth_scale. reflexivity.
Qed.

Lemma dft_coeff_lincomb a b x y j :
  length x = length y ->
  dft_coeff (vadd (scale a x) (scale b y)) j
  = (a * dft_coeff x j + b * dft_coeff y j)%C.
Proof.
  intro H. unfold dft_coeff.
  rewrite lincomb_length, <- H, <- !Csum_scale, <- Csum_add by assumption.
  apply Csum_ext. intros n Hn. rewrite nth_lincomb by assumption.
  generalize (Cexp (mkC 0 (- (2 * PI * INR j * INR n / INR (length x))))).
  generalize (nth n x Czero) (nth n y Czero). clear. Cring.
Qed.

Lemma dft_lincomb a b x y :
  length x = length y ->
  dft (vadd (scale a x) (scale b y))
  = vadd (scale a (dft x)) (scale b (dft y)).
Proof.
  intro H. apply (nth_ext _ _ Czero Czero).
  { rewrite dft_length, !lincomb_length, dft_length;
      rewrite ?dft_length; congruence. }
  intros n Hn. rewrite dft_length, lincomb_length in Hn by assumption.
  rewrite nth_dft by (rewrite lincomb_length; assumption).
  rewrite nth_lincomb by (rewrite !dft_length; congruence).
  rewrite !nth_dft by congruence.
  apply dft_coeff_lincomb. assumption.
Qed.

(** ** Sums of squared magnitudes (exact arithmetic) *)

Lemma sumsq_nil : sumsq [] = 0.
Proof. reflexivity. Qed.

Lemma sumsq_cons a l : sumsq (a :: l) = Cnorm2 a + sumsq l.
Proof. reflexivity. Qed.

Lemma sumsq_app l l' : sumsq (l ++ l') = sumsq l + sumsq l'.
Proof.
  induction l as [|a l IH]; cbn [app].
  - rewrite sumsq_nil. ring.
  - rewrite !sumsq_cons, IH. ring.
Qed.

Lemma sumsq_slices x : sumsq x = sumsq (slice2 0 x) + sumsq (slice2 1 x).
Proof.
  induction x as [| a | a b l IH] using list_ind2.
  - change (slice2 0 (@nil C)) with (@nil C).
    change (slice2 1 (@nil C)) with (@nil C). rewrite sumsq_nil. ring.
  - change (slice2 0 [a]) with [a]. change (slice2 1 [a]) with (@nil C).
    rewrite sumsq_cons, sumsq_nil. ring.
  - change (slice2 0 (a :: b :: l)) with (a :: slice2 0 l).
    replace (slice2 1 (a :: b :: l)) with (b :: slice2 1 l)
      by (destruct l; reflexivity).
    rewrite !sumsq_cons, IH. ring.
Qed.

Lemma sumsq_unit_mul W : forall O,
  length W = length O -> Forall (fun w => Cnorm2 w = 1) W ->
  sumsq (map2 Cmul W O) = sumsq O.
Proof.
  induction W as [|w W IH]; intros [|o O] HL HW; try discriminate.
  - reflexivity.
  - inversion HW as [|? ? Hw HW']; subst.
    change (map2 Cmul (w :: W) (o :: O)) with ((w * o)%C :: map2 Cmul W O).
    rewrite !sumsq_cons, IH by (assumption || (cbn in HL; lia)).
    f_equal. destruct w as [wr wi], o as [or oi].
    unfold Cnorm2, Cmul in *. cbn [Re Im] in *. nra.
Qed.

Lemma sumsq_add_sub E : forall T,
  length E = length T ->
  sumsq (map2 Cadd E T) + sumsq (map2 Csub E T) = 2 * (sumsq E + sumsq T).
Proof.
  induction E as [|e E IH]; intros [|t T] HL; try discriminate.
  - change (map2 Cadd [] []) with (@nil C).
    change (map2 Csub [] []) with (@nil C). rewrite sumsq_nil. ring.
  - change (map2 Cadd (e :: E) (t :: T)) with ((e + t)%C :: map2 Cadd E T).
    change (map2 Csub (e :: E) (t :: T)) with ((e - t)%C :: map2 Csub E T).
    rewrite !sumsq_cons.
    specialize (IH T ltac:(cbn in HL; lia)).
    destruct e as [er ei], t as [tr ti].
    unfold Cnorm2, Cadd, Csub in *. cbn [Re Im] in *. nra.
Qed.

Lemma in_firstn {A} (a : A) n l : In a (firstn n l) -> In a l.
Proof.
  intro H. rewrite <- (firstn_skipn n l). apply in_or_app. left. exact H.
Qed.

Lemma twiddles_unit N :
  Forall (fun w => Cnorm2 w = 1) (firstn (N / 2) (factor N)).
Proof.
  apply Forall_forall. intros w Hw. apply in_firstn in Hw.
  unfold factor in Hw. apply in_map_iff in Hw as (k & <- & Hk).
  apply in_seq in Hk. rewrite twiddle_arg, Cexp_imaginary by lia.
  apply cis_norm2.
Qed.

Lemma sumsq_butterfly N E O :
  length E = (N / 2)%nat -> length O = (N / 2)%nat ->
  sumsq (butterfly N E O) = 2 * (sumsq E + sumsq O).
Proof.
  intros HE HO. unfold butterfly.
  rewrite sumsq_app, sumsq_add_sub
    by (rewrite map2_length, twiddles_length, HO, HE; lia).
  rewrite sumsq_unit_mul; [reflexivity| |apply twiddles_unit].
  rewrite twiddles_length. congruence.
Qed.

Lemma sumsq_dft k : forall x,
  length x = (2 ^ k)%nat -> sumsq (dft x) = INR (length x) * sumsq x.
Proof.
  induction k as [|k IH]; intros x Hx.
  - destruct x as [|c [|c' x]]; try discriminate.
    rewrite dft_singleton. cbn [length INR]. ring.
  - destruct (pow2_halves k x Hx) as (H1 & Hev & Hh & L0 & L1).
    rewrite <- (butterfly_dft x (2 ^ k)).
    + rewrite sumsq_butterfly by (rewrite dft_length; congruence).
      rewrite !IH, L0, L1, (sumsq_slices x) by assumption.
      rewrite Hx, Nat.pow_succ_r', mult_INR. cbn [INR]. ring.
    + pose proof (Nat.pow_nonzero 2 k). lia.
    + rewrite Hx, Nat.pow_succ_r'. reflexivity.
Qed.

(** ** Small inputs, evaluated *)

Lemma twiddle_0 N : (0 < N)%nat ->
  Cexp ((- (mkC 0 2)) * RtoC PI * RtoC (INR 0) / RtoC (INR N))%C = Cone.
Proof.
  intro H. rewrite twiddle_arg, Cexp_imaginary by assumption.
  replace (- (2 * PI * INR 0 / INR N)) with 0.
  - apply cis_0.
  - cbn [INR]. field. apply not_0_INR. lia.
Qed.

Lemma twiddle_quarter :
  Cexp ((- (mkC 0 2)) * RtoC PI * RtoC (INR 1) / RtoC (INR 4))%C = mkC 0 (-1).
Proof.
  rewrite twiddle_arg, Cexp_imaginary by lia.
  replace (- (2 * PI * INR 1 / INR 4)) with (- (PI / 2))
    by (cbn [INR]; field).
  unfold cis. rewrite cos_neg, sin_neg, cos_PI2, sin_PI2. reflexivity.
Qed.

Lemma fft_fuel_pair f a b :
  fft_fuel (S (S f)) [a; b] = Some (Return [(a + b)%C; (a - b)%C]).
Proof.
  rewrite (fft_fuel_step _ _ [a] [b]);
    [ | cbn; lia | reflexivity | reflexivity .. ].
  unfold butterfly, factor.
  change (length [a; b]) with 2%nat. change (2 / 2)%nat with 1%nat.
  cbn [seq map firstn map2 combine fst snd app].
  rewrite twiddle_0, Cmul_1_l by lia. reflexivity.
Qed.

Lemma fft_fuel_quad f a b c d :
  fft_fuel (S (S (S f))) [a; b; c; d]
  = Some (Return [(a + c + (b + d))%C; (a - c + mkC 0 (-1) * (b - d))%C;
                  (a + c - (b + d))%C; (a - c - mkC 0 (-1) * (b - d))%C]).
Proof.
  rewrite (fft_fuel_step _ _ [(a + c)%C; (a - c)%C] [(b + d)%C; (b - d)%C]);
    [ | cbn; lia | reflexivity | apply fft_fuel_pair | apply fft_fuel_pair
      | reflexivity | reflexivity ].
  unfold butterfly, factor.
  change (length [a; b; c; d]) with 4%nat. change (4 / 2)%nat with 2%nat.
  cbn [seq map firstn map2 combine fst snd app].
  rewrite twiddle_0, twiddle_quarter, Cmul_1_l by lia. reflexivity.
Qed.

(** ** Failing inputs *)

Lemma fft_raises d x m :
  length x = (2 ^ d * m)%nat -> (1 < m)%nat -> (m mod 2 = 1)%nat ->
  fft x = Some (Raise size_error).
Proof.
  intros Hx Hm Hodd. unfold fft.
  rewrite (fft_fuel_raises_at d x m) by assumption.
  assert (Hd : (d < S (length x))%nat).
  { pose proof (Nat.pow_gt_lin_r 2 d). nia. }
  apply Nat.leb_gt in Hd. rewrite Hd. reflexivity.
Qed.

Lemma subcall_length y x :
  subcall y x -> length x = (2 * length y)%nat /\ (0 < length y)%nat.
Proof.
  intro H. inversion H as [x' H1 Hev|x' H1 Hev]; subst;
    destruct (even_halves x Hev) as [L0 L1];
    pose proof (Nat.div_mod_eq (length x) 2); lia.
Qed.

Lemma calls_length x y :
  calls x y -> exists d, length x = (2 ^ d * length y)%nat.
Proof.
  intro H. induction H as [|y z _ [d Hd] Hs].
  - exists 0%nat. cbn. lia.
  - apply subcall_length in Hs as [Hs _]. exists (S d).
    rewrite Hd, Hs, Nat.pow_succ_r'. lia.
Qed.

Lemma subcall_wf : well_founded subcall.
Proof.
  apply (well_founded_lt_compat _ (@length C)).
  intros y x H. apply subcall_length in H. lia.
Qed.

Lemma not_pow2_decomposition n :
  (0 < n)%nat -> (forall k, n <> 2 ^ k)%nat ->
  exists d m, n = (2 ^ d * m)%nat /\ (m mod 2 = 1)%nat /\ (1 < m)%nat.
Proof.
  intros Hn Hnp. destruct (pow2_odd_decomposition n Hn) as (d & m & Hd & Hm).
  exists d, m. repeat split; try assumption.
  destruct m as [|[|m]]; [cbn in Hm; discriminate| |lia].
  exfalso. apply (Hnp d). lia.
Qed.

(** * The claims *)

(** C2. On an input of odd length greater than one, the first call raises
    the size error by itself: a budget of one call, which allows no nested
    call, already yields it.  The outcome of [fft] is the error, with no
    sequence, and every call that leads to such an input fails with the
    same error. *)
Theorem fft_odd_length_raises (x : list C)
  (H1 : (1 < length x)%nat) (Hodd : (length x mod 2 = 1)%nat) :
  fft_fuel 1 x = Some (Raise size_error) /\
  fft x = Some (Raise size_error) /\
  forall p, calls p x -> fft p = Some (Raise size_error).
Proof.
  split; [apply fft_fuel_odd; lia|].
  split; [apply fft_fuel_odd; lia|].
  intros p Hp. destruct (calls_length p x Hp) as [d Hd].
  apply (fft_raises d p (length x)); assumption.
Qed.

Lemma fft_odd_length_raises_witness :
  fft_fuel 1 [RtoC 1; RtoC 2; RtoC 3] = Some (Raise size_error) /\
  fft [RtoC 1; RtoC 2; RtoC 3] = Some (Raise size_error).
Proof.
  destruct (fft_odd_length_raises [RtoC 1; RtoC 2; RtoC 3]) as (A & B & _).
  - cbn. lia.
  - reflexivity.
  - split; assumption.
Defined.

(** C3. On [2 ^ k] samples (in particular for [k] from 0 to 10) [fft]
    returns a sequence of the same length; so does every nested call it
    makes, and so does any call at all that returns. *)
Theorem fft_preserves_length (k : nat) (x : list C)
  (Hx : length x = (2 ^ k)%nat) :
  (exists X, fft x = Some (Return X) /\ length X = (2 ^ k)%nat) /\
  (forall y, calls x y ->
     exists Y, fft y = Some (Return Y) /\ length Y = length y) /\
  (forall fuel (y Y : list C),
     fft_fuel fuel y = Some (Return Y) -> length Y = length y).
Proof.
  split; [|split].
  - exists (dft x). split; [apply (fft_pow2 k); assumption|].
    rewrite dft_length. assumption.
  - intros y Hy. destruct (calls_pow2 k x y Hx Hy) as (j & _ & Hj).
    exists (dft y). split; [apply (fft_pow2 j); assumption|apply dft_length].
  - intros fuel y Y H.
    destruct (fft_fuel_outcome _ _ _ H) as [G|(Y' & G & L)];
      [discriminate|]. injection G as <-. assumption.
Qed.

Lemma fft_preserves_length_witness :
  exists X, fft (repeat Cone 1024) = Some (Return X) /\
            length X = (2 ^ 10)%nat.
Proof.
  destruct (fft_preserves_length 10 (repeat Cone 1024)) as [A _].
  - rewrite repeat_length. reflexivity.
  - exact A.
Defined.

(** C4. The empty sequence and every one-element sequence are returned
    unchanged. *)
Theorem fft_base_identity :
  fft [] = Some (Return []) /\ forall c : C, fft [c] = Some (Return [c]).
Proof. split; [reflexivity|]. intro c. reflexivity. Qed.

(** C5. [fft([a, b]) = [a+b, a-b]] for all complex [a], [b];
    [fft([1, 0, 0, 0]) = [1, 1, 1, 1]]; [fft([1, 1, 1, 1]) = [4, 0, 0, 0]]. *)
Theorem fft_small_values :
  (forall a b : C, fft [a; b] = Some (Return [(a + b)%C; (a - b)%C])) /\
  fft [RtoC 1; RtoC 0; RtoC 0; RtoC 0]
    = Some (Return [RtoC 1; RtoC 1; RtoC 1; RtoC 1]) /\
  fft [RtoC 1; RtoC 1; RtoC 1; RtoC 1]
    = Some (Return [RtoC 4; RtoC 0; RtoC 0; RtoC 0]).
Proof.
  split; [|split].
  - intros a b. apply fft_fuel_pair.
  - unfold fft. cbn [length]. rewrite fft_fuel_quad.
    do 2 f_equal. repeat (apply (f_equal2 cons); [Cring|]). reflexivity.
  - unfold fft. cbn [length]. rewrite fft_fuel_quad.
    do 2 f_equal. repeat (apply (f_equal2 cons); [Cring|]). reflexivity.
Qed.

(** C8. On an input of even length greater than one that is not a power
    of two, the first call does not raise by itself (one call is not
    enough to decide), the size error is raised [d >= 1] levels deeper, by
    the call on the [d]-fold even-indexed half, whose length is odd and
    greater than one, and no budget makes [fft] return a sequence. *)
Theorem fft_even_non_pow2_raises_deeper (x : list C)
  (H1 : (1 < length x)%nat) (Hev : (length x mod 2 = 0)%nat)
  (Hnp : forall k, length x <> (2 ^ k)%nat) :
  fft_fuel 1 x = None /\
  fft x = Some (Raise size_error) /\
  (forall fuel X, fft_fuel fuel x <> Some (Return X)) /\
  exists d, (0 < d)%nat /\
    calls x (Nat.iter d (slice2 0) x) /\
    (1 < length (Nat.iter d (slice2 0) x))%nat /\
    (length (Nat.iter d (slice2 0) x) mod 2 = 1)%nat /\
    fft_fuel 1 (Nat.iter d (slice2 0) x) = Some (Raise size_error) /\
    (forall fuel, (fuel <= d)%nat -> fft_fuel fuel x = None) /\
    (forall fuel, (d < fuel)%nat -> fft_fuel fuel x = Some (Raise size_error)).
Proof.
  destruct (not_pow2_decomposition (length x) ltac:(lia) Hnp)
    as (d & m & Hd & Hodd & Hm).
  assert (Hpos : (0 < d)%nat).
  { destruct d; [|lia]. assert (length x = m) as E by (cbn in Hd; lia).
    rewrite E in Hev. lia. }
  pose proof (fft_fuel_raises_at d x m Hd Hm Hodd) as Hf.
  destruct (calls_iter_even d x m Hd Hm) as [Hc Hl].
  split; [|split; [|split]].
  - rewrite Hf. destruct d; [lia|reflexivity].
  - apply (fft_raises d x m); assumption.
  - intros fuel X. rewrite Hf. destruct (fuel <=? d)%nat; discriminate.
  - exists d. rewrite Hl. repeat split; try assumption.
    + apply fft_fuel_odd; rewrite Hl; lia.
    + intros fuel Hfu. rewrite Hf. apply Nat.leb_le in Hfu.
      rewrite Hfu. reflexivity.
    + intros fuel Hfu. rewrite Hf. apply Nat.leb_gt in Hfu.
      rewrite Hfu. reflexivity.
Qed.

Lemma fft_even_non_pow2_raises_deeper_witness :
  fft_fuel 1 (repeat Cone 6) = None /\
  fft (repeat Cone 6) = Some (Raise size_error).
Proof.
  destruct (fft_even_non_pow2_raises_deeper (repeat Cone 6)) as (A & B & _).
  - cbn. lia.
  - reflexivity.
  - intro k. cbn [repeat length].
    destruct k as [|[|[|k]]]; cbn; lia.
  - split; assumption.
Defined.

(** C9. On an input of power-of-two length, every call reached by the
    recursion is again on a power-of-two length, so it passes the size
    check and never raises, and [fft] returns a complete sequence. *)
Theorem fft_pow2_completes (k : nat) (x : list C)
  (Hx : length x = (2 ^ k)%nat) :
  (exists X, fft x = Some (Return X) /\ length X = length x) /\
  forall y, calls x y ->
    (exists j, (j <= k)%nat /\ length y = (2 ^ j)%nat) /\
    ((length y <= 1)%nat \/ (length y mod 2 = 0)%nat) /\
    (forall fuel e, fft_fuel fuel y <> Some (Raise e)) /\
    (exists Y, fft y = Some (Return Y) /\ length Y = length y).
Proof.
  split.
  { exists (dft x). split; [apply (fft_pow2 k); assumption|apply dft_length]. }
  intros y Hy. destruct (calls_pow2 k x y Hx Hy) as (j & Hj & Hl).
  split; [eauto|]. split; [|split].
  - destruct j as [|j]; [left; cbn in Hl; lia|right].
    apply (pow2_halves j y Hl).
  - intros fuel e H.
    pose proof (fft_fuel_pow2 j y Hl) as Hok.
    destruct (Nat.le_ge_cases fuel (S j)) as [Hle|Hle].
    + rewrite (fft_fuel_mono _ _ _ _ Hle H) in Hok. discriminate.
    + rewrite (fft_fuel_mono _ _ _ _ Hle Hok) in H. discriminate.
  - exists (dft y). split; [apply (fft_pow2 j); assumption|apply dft_length].
Qed.

Lemma fft_pow2_completes_witness :
  exists X, fft [RtoC 1; RtoC 2; RtoC 3; RtoC 4; RtoC 5; RtoC 6; RtoC 7; RtoC 8]
            = Some (Return X) /\ length X = 8%nat.
Proof.
  destruct (fft_pow2_completes 3
              [RtoC 1; RtoC 2; RtoC 3; RtoC 4; RtoC 5; RtoC 6; RtoC 7; RtoC 8])
    as [A _].
  - reflexivity.
  - exact A.
Defined.

(** C10. [fft] terminates on every input: each nested call is on half the
    samples, strictly fewer than [N > 1], so the relation between a call
    and the calls it makes is well founded; a budget of [S f] nested calls
    yields the outcome on every input of at most [2 ^ f] samples, and the
    outcome is a returned sequence or the size error. *)
Theorem fft_terminates :
  well_founded subcall /\
  (forall x y, subcall y x ->
     length y = (length x / 2)%nat /\ (length y < length x)%nat) /\
  (forall x, exists r,
     fft x = Some r /\
     (r = Raise size_error \/ exists X, r = Return X /\ length X = length x) /\
     forall f, (length x <= 2 ^ f)%nat -> fft_fuel (S f) x = Some r).
Proof.
  split; [apply subcall_wf|]. split.
  - intros x y H. apply subcall_length in H as [H H']. split; [|lia].
    rewrite H, Nat.mul_comm. symmetry. apply Nat.div_mul. lia.
  - intro x. destruct (fft_budget_enough x) as (r & Hr & Hf).
    exists r. split; [assumption|]. split; [|assumption].
    apply (fft_fuel_outcome _ _ _ Hr).
Qed.

Lemma fft_terminates_witness :
  exists r, fft (repeat Cone 12) = Some r /\
            fft_fuel 5 (repeat Cone 12) = Some r.
Proof.
  destruct fft_terminates as (_ & _ & H).
  destruct (H (repeat Cone 12)) as (r & A & _ & B).
  exists r. split; [exact A|]. apply (B 4%nat). cbn. lia.
Defined.

(** * Further properties of the transform *)

(** ** Sums with few non-zero terms *)

Lemma Csum_seq_S (f : nat -> C) N :
  Csum (map f (seq 0 (S N))) = (Csum (map f (seq 0 N)) + f N)%C.
Proof.
  rewrite seq_S, map_app, Csum_app. cbn [map Nat.add].
  rewrite Csum_cons, Csum_nil. f_equal. Cring.
Qed.

Lemma Csum_zero (f : nat -> C) N :
  (forall n, (n < N)%nat -> f n = Czero) -> Csum (map f (seq 0 N)) = Czero.
Proof.
  intro H. induction N as [|N IH]; [reflexivity|].
  rewrite Csum_seq_S, IH by (intros; apply H; lia).
  rewrite H by lia. Cring.
Qed.

Lemma Csum_single (f : nat -> C) N p :
  (p < N)%nat -> (forall n, (n < N)%nat -> n <> p -> f n = Czero) ->
  Csum (map f (seq 0 N)) = f p.
Proof.
  induction N as [|N IH]; intros Hp H; [lia|].
  rewrite Csum_seq_S. destruct (Nat.eq_dec p N) as [->|Hne].
  - rewrite Csum_zero by (intros; apply H; lia). Cring.
  - rewrite IH by (try lia; intros; apply H; lia).
    rewrite (H N) by lia. Cring.
Qed.

(** ** Roots of unity *)

Lemma cis_eq_1 t : 0 < t < 2 * PI -> cis t <> Cone.
Proof.
  intros [H0 H2] E. unfold cis, Cone, RtoC in E. injection E as Ec Es.
  destruct (sin_eq_O_2PI_0 t) as [G|[G|G]]; try lra.
  rewrite G, cos_PI in Ec. lra.
Qed.

Lemma cis_mul_turns t (q : nat) : cis (- (2 * PI * INR q) + t) = cis t.
Proof.
  rewrite <- (cis_period t q). f_equal. ring.
Qed.

(** Geometric sum: [(Σ_{m<K} w^m) (1 - w) = 1 - w^K] for [w = cis t]. *)
Lemma cis_geometric t K :
  (Csum (map (fun m : nat => cis (INR m * t)) (seq 0 K)) * (Cone - cis t))%C
  = (Cone - cis (INR K * t))%C.
Proof.
  induction K as [|K IH].
  - cbn [seq map INR]. rewrite Csum_nil, Rmult_0_l, cis_0. Cring.
  - rewrite Csum_seq_S, S_INR.
    replace ((INR K + 1) * t) with (INR K * t + t) by ring.
    rewrite cis_add.
    transitivity
      ((Csum (map (fun m : nat => cis (INR m * t)) (seq 0 K)) * (Cone - cis t)
        + cis (INR K * t) * (Cone - cis t))%C).
    + generalize (Csum (map (fun m : nat => cis (INR m * t)) (seq 0 K))).
      generalize (cis (INR K * t)) (cis t). clear. Cring.
    + rewrite IH. generalize (cis (INR K * t)) (cis t). clear. Cring.
Qed.

Lemma Cmul_integral a b : (a * b)%C = Czero -> b <> Czero -> a = Czero.
Proof.
  destruct a as [ar ai], b as [br bi]. unfold Cmul, Czero, RtoC.
  cbn [Re Im]. intros E Hb. injection E as E1 E2.
  assert (Hn : br * br + bi * bi <> 0).
  { intro Hz. apply Hb. f_equal; nra. }
  assert (Ha : (ar * ar + ai * ai) * (br * br + bi * bi) = 0) by nra.
  apply Rmult_integral in Ha as [Ha|Ha]; [|contradiction].
  f_equal; nra.
Qed.

(** Orthogonality of the [N]-th roots of unity. *)
Lemma roots_sum N t :
  (0 < N)%nat ->
  Csum (map (fun m : nat => cis (- (2 * PI * INR m * INR t / INR N)))
            (seq 0 N))
  = if (t mod N =? 0)%nat then RtoC (INR N) else Czero.
Proof.
  intro HN. assert (HNR : INR N <> 0) by (apply not_0_INR; lia).
  pose proof (Nat.div_mod_eq t N) as Et.
  pose proof (Nat.mod_upper_bound t N ltac:(lia)) as Br.
  set (q := (t / N)%nat) in *. set (r := (t mod N)%nat) in *.
  assert (Hterm : forall m : nat,
            cis (- (2 * PI * INR m * INR t / INR N))
            = cis (INR m * (- (2 * PI * INR r / INR N)))).
  { intro m.
    rewrite <- (cis_mul_turns (INR m * - (2 * PI * INR r / INR N)) (m * q)).
    f_equal.
    rewrite Et, plus_INR, !mult_INR. field. assumption. }
  rewrite (Csum_ext _ (fun m => cis (INR m * (- (2 * PI * INR r / INR N)))))
    by (intros; apply Hterm).
  destruct (Nat.eqb_spec r 0) as [Hr|Hr].
  - rewrite Hr. cbn [INR].
    rewrite (Csum_ext _ (fun _ => Cone)).
    + clear. induction N as [|N IH]; [reflexivity|].
      rewrite Csum_seq_S, IH, S_INR. Cring.
    + intros m _. rewrite <- cis_0. f_equal. field. assumption.
  - apply (Cmul_integral _ (Cone - cis (- (2 * PI * INR r / INR N)))%C).
    + rewrite cis_geometric.
      replace (INR N * - (2 * PI * INR r / INR N))
        with (- (2 * PI * INR r) + 0) by (field; assumption).
      rewrite cis_mul_turns, cis_0. Cring.
    + intro E.
      assert (Hc : cis (2 * PI * INR r / INR N) = Cone).
      { unfold cis, Cone, Czero, RtoC, Csub in *. cbn [Re Im] in E.
        rewrite cos_neg, sin_neg in E. injection E as E1 E2.
        f_equal; lra. }
      revert Hc. apply cis_eq_1.
      assert (0 < INR r) by (apply lt_0_INR; lia).
      assert (INR r < INR N) by (apply lt_INR; lia).
      assert (0 < INR N) by (apply lt_0_INR; lia).
      pose proof PI_RGT_0. split.
      * apply Rdiv_lt_0_compat; nra.
      * apply (Rmult_lt_reg_r (INR N)); [assumption|].
        unfold Rdiv. rewrite Rmult_assoc, Rinv_l by assumption. nra.
Qed.

(** ** Impulse and constant *)

Lemma nth_impulse N n :
  nth n (impulse N) Czero = if (n =? 0)%nat then
                              if (N =? 0)%nat then Czero else Cone
                            else Czero.
Proof.
  destruct N as [|N]; destruct n as [|n]; cbn [impulse nth Nat.eqb];
    try reflexivity.
  destruct (Nat.lt_ge_cases n N) as [H|H].
  - apply nth_repeat_lt. assumption.
  - apply nth_overflow. rewrite repeat_length. assumption.
Qed.

Lemma impulse_length N : length (impulse N) = N.
Proof. destruct N; cbn [impulse length]; rewrite ?repeat_length; reflexivity. Qed.

Lemma dft_impulse N : dft (impulse N) = repeat Cone N.
Proof.
  apply (nth_ext _ _ Czero Czero).
  { rewrite dft_length, impulse_length, repeat_length. reflexivity. }
  intros j Hj. rewrite dft_length in Hj.
  rewrite nth_dft by assumption. rewrite impulse_length in Hj.
  rewrite nth_repeat_lt by assumption.
  rewrite dft_coeff_cis, impulse_length.
  rewrite (Csum_single _ N 0) by
    (try lia; intros n Hn Hne; rewrite nth_impulse;
     apply Nat.eqb_neq in Hne; rewrite Hne; Cring).
  rewrite nth_impulse. cbn [Nat.eqb INR].
  destruct (Nat.eqb_spec N 0) as [->|_]; [lia|].
  replace (- (2 * PI * INR j * 0 / INR N)) with 0
    by (field; apply not_0_INR; lia).
  rewrite cis_0. Cring.
Qed.

Lemma dft_constant c N :
  dft (repeat c N)
  = match N with
    | O => []
    | S n => (RtoC (INR N) * c)%C :: repeat Czero n
    end.
Proof.
  destruct N as [|n]; [reflexivity|]. set (N := S n).
  assert (HNR : INR N <> 0) by (apply not_0_INR; lia).
  apply (nth_ext _ _ Czero Czero).
  { rewrite dft_length, repeat_length. cbn [length].
    rewrite repeat_length. reflexivity. }
  intros j Hj. rewrite dft_length, repeat_length in Hj.
  rewrite nth_dft by (rewrite repeat_length; assumption).
  rewrite dft_coeff_cis, repeat_length.
  rewrite (Csum_ext _ (fun m =>
    (c * cis (- (2 * PI * INR m * INR j / INR N)))%C)).
  2:{ intros m Hm. rewrite nth_repeat_lt by assumption. do 2 f_equal.
      field. assumption. }
  rewrite Csum_scale, roots_sum, Nat.mod_small by lia.
  destruct j as [|j]; cbn [Nat.eqb nth].
  - Cring.
  - rewrite nth_repeat_lt by lia. apply Cmul_0_r.
Qed.

(** ** Which inputs succeed, and how deep the recursion goes *)

Lemma fft_return_cases x X :
  fft x = Some (Return X) ->
  (x = [] /\ X = []) \/ exists k, length x = (2 ^ k)%nat /\ X = dft x.
Proof.
  intro H. destruct x as [|c x]; [left|right].
  { unfold fft in H. rewrite fft_fuel_base in H by (cbn; lia).
    injection H as <-. split; reflexivity. }
  destruct (pow2_odd_decomposition (length (c :: x))) as (d & m & Hd & Hm);
    [cbn; lia|].
  destruct m as [|[|m]]; [cbn in Hm; discriminate| |].
  - exists d. rewrite Nat.mul_1_r in Hd. split; [assumption|].
    rewrite (fft_pow2 d) in H by assumption. injection H as <-. reflexivity.
  - rewrite (fft_raises d _ (S (S m))) in H by (assumption || lia).
    discriminate.
Qed.

Lemma fft_fuel_pow2_shallow k : forall x f,
  length x = (2 ^ k)%nat -> (f <= k)%nat -> fft_fuel f x = None.
Proof.
  induction k as [|k IH]; intros x [|f] Hx Hf; try reflexivity; [lia|].
  destruct (pow2_halves k x Hx) as (H1 & Hev & _ & L0 & _).
  rewrite fft_fuel_even by assumption.
  rewrite (IH (slice2 0 x) f) by (assumption || lia). reflexivity.
Qed.

(** X1. [fft] returns a sequence exactly on the lengths 0 and [2 ^ k], and
    raises the size error exactly on the other lengths. *)
Theorem fft_succeeds_iff (x : list C) :
  ((exists X, fft x = Some (Return X)) <->
   (length x = 0%nat \/ exists k, length x = (2 ^ k)%nat)) /\
  (fft x = Some (Raise size_error) <->
   ((0 < length x)%nat /\ forall k, length x <> (2 ^ k)%nat)).
Proof.
  split; split.
  - intros [X H]. destruct (fft_return_cases x X H) as [[-> _]|(k & Hk & _)];
      [left; reflexivity|right; eauto].
  - intros [H0|[k Hk]].
    + destruct x; [|discriminate]. exists []. reflexivity.
    + exists (dft x). apply (fft_pow2 k). assumption.
  - intro H. split.
    + destruct x; [discriminate|cbn; lia].
    + intros k Hk. rewrite (fft_pow2 k) in H by assumption. discriminate.
  - intros [H0 Hnp].
    destruct (not_pow2_decomposition _ H0 Hnp) as (d & m & Hd & Hm & H1).
    apply (fft_raises d x m); assumption.
Qed.

Lemma fft_succeeds_iff_witness :
  (exists X, fft (repeat Cone 16) = Some (Return X)) /\
  fft (repeat Cone 24) = Some (Raise size_error).
Proof.
  split.
  - apply (proj1 (fft_succeeds_iff (repeat Cone 16))).
    right. exists 4%nat. reflexivity.
  - apply (proj2 (fft_succeeds_iff (repeat Cone 24))). split.
    + cbn. lia.
    + intro k. cbn [repeat length].
      destruct k as [|[|[|[|[|k]]]]]; cbn; lia.
Defined.

(** X2. On [2 ^ k] samples the recursion is exactly [k + 1] calls deep:
    a budget of [k] nested calls is exhausted, and every budget above [k]
    gives the result of [fft]. *)
Theorem fft_depth_pow2 (k : nat) (x : list C)
  (Hx : length x = (2 ^ k)%nat) :
  (forall fuel, (fuel <= k)%nat -> fft_fuel fuel x = None) /\
  (forall fuel, (k < fuel)%nat -> fft_fuel fuel x = fft x) /\
  exists X, fft x = Some (Return X).
Proof.
  split; [|split].
  - intros fuel Hf. apply (fft_fuel_pow2_shallow k); assumption.
  - intros fuel Hf. rewrite (fft_pow2 k) by assumption.
    apply (fft_fuel_mono (S k)); [lia|]. apply fft_fuel_pow2. assumption.
  - exists (dft x). apply (fft_pow2 k). assumption.
Qed.

Lemma fft_depth_pow2_witness :
  fft_fuel 3 (repeat Cone 8) = None /\
  fft_fuel 4 (repeat Cone 8) = fft (repeat Cone 8).
Proof.
  destruct (fft_depth_pow2 3 (repeat Cone 8)) as (A & B & _).
  - reflexivity.
  - split; [apply A; lia|apply B; lia].
Defined.

(** X6. The unit impulse of [2 ^ k] samples is transformed into the flat
    spectrum of [2 ^ k] ones. *)
Theorem fft_impulse (k : nat) :
  fft (impulse (2 ^ k)) = Some (Return (repeat Cone (2 ^ k))).
Proof.
  rewrite (fft_pow2 k) by apply impulse_length.
  rewrite dft_impulse. reflexivity.
Qed.

(** X7. A constant sequence of [N = 2 ^ k] values [c], where [N] times
    each component of [c] stays within the largest finite double (nothing
    overflows), is transformed into [N * c] followed by [N - 1] zeros. *)
Theorem fft_constant (k : nat) (c : C)
  (Hre : INR (2 ^ k) * Rabs (Re c) <= max_double)
  (Him : INR (2 ^ k) * Rabs (Im c) <= max_double) :
  fft (repeat c (2 ^ k))
  = Some (Return ((RtoC (INR (2 ^ k)) * c)%C :: repeat Czero (2 ^ k - 1))).
Proof.
  rewrite (fft_pow2 k) by apply repeat_length.
  rewrite dft_constant.
  pose proof (Nat.pow_nonzero 2 k ltac:(lia)) as H.
  destruct (2 ^ k)%nat as [|n] eqn:E; [lia|].
  cbn [Nat.sub]. rewrite Nat.sub_0_r. reflexivity.
Qed.

Lemma fft_constant_witness :
  fft (repeat (mkC 3 (-1)) 4)
  = Some (Return ((RtoC (INR 4) * mkC 3 (-1))%C :: repeat Czero 3)).
Proof.
  assert (Hmax : 12 <= max_double).
  { unfold max_double. assert (1 <= 2 ^ 971) by (apply pow_R1_Rle; lra).
    assert (12 <= 2 ^ 53 - 1) by lra. nra. }
  apply (fft_constant 2 (mkC 3 (-1))); cbn [Re Im Nat.pow Nat.mul Nat.add INR].
  - rewrite Rabs_pos_eq by lra. lra.
  - rewrite Rabs_left by lra. lra.
Defined.

(** * The exercises *)

Section ExerciseFacts.
Local Open Scope Z_scope.

(** ** Indexing and sums *)

Lemma getitem_inside A (m : nat) :
  (m < length A)%nat -> getitem A (Z.of_nat m) = Value (nth m A 0).
Proof.
  intro H. unfold getitem.
  destruct (Z.ltb_spec (Z.of_nat m) 0) as [G|_]; [lia|].
  destruct (Z.ltb_spec (Z.of_nat m) 0) as [G|_]; [lia|].
  destruct (Z.leb_spec (Z.of_nat (length A)) (Z.of_nat m)) as [G|_]; [lia|].
  cbn [orb]. rewrite Znat.Nat2Z.id. reflexivity.
Qed.

Lemma getitem_beyond A i :
  Z.of_nat (length A) <= i -> getitem A i = Fails IndexError.
Proof.
  intro H. unfold getitem.
  destruct (Z.ltb_spec i 0) as [G|_]; [lia|].
  destruct (Z.ltb_spec i 0) as [G|_]; [lia|].
  destruct (Z.leb_spec (Z.of_nat (length A)) i) as [_|G]; [|lia].
  reflexivity.
Qed.

Lemma getitem_negative A (m : nat) :
  (0 < m <= length A)%nat ->
  getitem A (- Z.of_nat m) = Value (nth (length A - m) A 0).
Proof.
  intro H. unfold getitem.
  destruct (Z.ltb_spec (- Z.of_nat m) 0) as [_|G]; [|lia].
  destruct (Z.ltb_spec (- Z.of_nat m + Z.of_nat (length A)) 0) as [G|_];
    [lia|].
  destruct (Z.leb_spec (Z.of_nat (length A))
              (- Z.of_nat m + Z.of_nat (length A))) as [G|_]; [lia|].
  cbn [orb]. do 2 f_equal. lia.
Qed.

Lemma zsum_cons a l : zsum (a :: l) = a + zsum l.
Proof. reflexivity. Qed.

Lemma zsum_app l l' : zsum (l ++ l') = zsum l + zsum l'.
Proof.
  induction l as [|a l IH]; [reflexivity|].
  cbn [app]. unfold zsum in *. cbn [fold_right]. rewrite IH. lia.
Qed.

Lemma firstn_S_nth (A : list Z) (m : nat) :
  (m < length A)%nat -> firstn (S m) A = (firstn m A ++ [nth m A 0])%list.
Proof.
  revert A. induction m as [|m IH]; intros [|a A] H; cbn [length] in H;
    try lia; [reflexivity|].
  cbn [firstn nth app]. rewrite <- IH by lia. reflexivity.
Qed.

Lemma zsum_firstn_S (A : list Z) (m : nat) :
  (m < length A)%nat ->
  zsum (firstn (S m) A) = zsum (firstn m A) + nth m A 0.
Proof.
  intro H. rewrite firstn_S_nth, zsum_app by assumption.
  unfold zsum at 2. cbn [fold_right]. lia.
Qed.

Lemma skipn_nth_cons (A : list Z) (m : nat) :
  (m < length A)%nat -> skipn m A = nth m A 0 :: skipn (S m) A.
Proof.
  revert A. induction m as [|m IH]; intros [|a A] H; cbn [length] in H;
    try lia; [reflexivity|].
  cbn [skipn nth]. apply IH. lia.
Qed.

(** ** [rec_soma] *)

Lemma rec_soma_prefix A : forall (m depth : nat),
  (m < length A)%nat -> (m < depth)%nat ->
  rec_soma depth (Z.of_nat m) A = Value (zsum (firstn (S m) A)).
Proof.
  induction m as [|m IH]; intros [|d] Hm Hd; try lia.
  - pose proof (getitem_inside A 0 Hm) as G. cbn [Z.of_nat] in G.
    cbn [rec_soma Z.of_nat Z.eqb]. rewrite G.
    rewrite zsum_firstn_S by assumption. reflexivity.
  - cbn [rec_soma].
    destruct (Z.eqb_spec (Z.of_nat (S m)) 0) as [G|_]; [lia|].
    replace (Z.of_nat (S m) - 1) with (Z.of_nat m) by lia.
    rewrite IH by lia. cbn [and_then].
    rewrite getitem_inside by assumption. cbn [and_then].
    rewrite (zsum_firstn_S A (S m)) by assumption. reflexivity.
Qed.

Lemma rec_soma_beyond A : forall (m depth : nat),
  (length A <= m)%nat -> (m < depth)%nat ->
  rec_soma depth (Z.of_nat m) A = Fails IndexError.
Proof.
  induction m as [|m IH]; intros [|d] Hm Hd; try lia.
  - cbn [rec_soma Z.of_nat Z.eqb]. apply getitem_beyond. lia.
  - cbn [rec_soma].
    destruct (Z.eqb_spec (Z.of_nat (S m)) 0) as [G|_]; [lia|].
    replace (Z.of_nat (S m) - 1) with (Z.of_nat m) by lia.
    destruct (Nat.lt_ge_cases m (length A)) as [Hin|Hout].
    + rewrite rec_soma_prefix by lia. cbn [and_then].
      rewrite getitem_beyond by lia. reflexivity.
    + rewrite IH by lia. reflexivity.
Qed.

Lemma rec_soma_stack A : forall (depth : nat) n,
  n < 0 \/ Z.of_nat depth <= n -> rec_soma depth n A = Fails RecursionError.
Proof.
  induction depth as [|d IH]; intros n H; [reflexivity|].
  cbn [rec_soma]. destruct (Z.eqb_spec n 0) as [G|_]; [lia|].
  rewrite IH by lia. reflexivity.
Qed.

(** ** [rec_soma_esqdir] *)

Lemma rec_soma_esqdir_empty depth k n A :
  n < k -> rec_soma_esqdir (S depth) k n A = Value 0.
Proof.
  intro H. cbn [rec_soma_esqdir].
  destruct (Z.gtb_spec k n) as [_|G]; [reflexivity|lia].
Qed.

Lemma rec_soma_esqdir_step depth k n A :
  k <= n ->
  rec_soma_esqdir (S depth) k n A =
    and_then (rec_soma_esqdir depth (k + 1) n A) (fun r =>
    and_then (getitem A k) (fun a => Value (r + a))).
Proof.
  intro H. cbn [rec_soma_esqdir].
  destruct (Z.gtb_spec k n) as [G|_]; [lia|reflexivity].
Qed.

(** The terms [A[k..n]] for [0 <= k]: [c] of them, from index [k]. *)
Lemma rec_soma_esqdir_range A : forall (c k depth : nat),
  (k + c <= length A)%nat -> (c < depth)%nat ->
  rec_soma_esqdir depth (Z.of_nat k) (Z.of_nat k + Z.of_nat c - 1) A
  = Value (zsum (firstn c (skipn k A))).
Proof.
  induction c as [|c IH]; intros k [|d] Hk Hd; try lia.
  - rewrite rec_soma_esqdir_empty by lia. reflexivity.
  - rewrite rec_soma_esqdir_step by lia.
    replace (Z.of_nat k + 1) with (Z.of_nat (S k)) by lia.
    replace (Z.of_nat k + Z.of_nat (S c) - 1)
      with (Z.of_nat (S k) + Z.of_nat c - 1) by lia.
    rewrite IH by lia. cbn [and_then].
    rewrite getitem_inside by lia. cbn [and_then].
    rewrite (skipn_nth_cons A k) by lia. cbn [firstn].
    unfold zsum. cbn [fold_right]. f_equal. lia.
Qed.

(** From a negative [k = -c]: the last [c] elements, then [A[0..n]]. *)
Lemma rec_soma_esqdir_wrap A (m : nat) : forall (c depth : nat),
  (c <= length A)%nat -> (m <= length A)%nat -> (c + m < depth)%nat ->
  rec_soma_esqdir depth (- Z.of_nat c) (Z.of_nat m - 1) A
  = Value (zsum (firstn m A) + zsum (skipn (length A - c) A)).
Proof.
  induction c as [|c IH]; intros depth Hc Hm Hd.
  - pose proof (rec_soma_esqdir_range A m 0 depth) as H.
    cbn [Z.of_nat Z.opp]. cbn [Z.of_nat Z.add skipn] in H.
    rewrite H by lia. rewrite Nat.sub_0_r, skipn_all. cbn. f_equal. lia.
  - destruct depth as [|d]; [lia|].
    rewrite rec_soma_esqdir_step by lia.
    replace (- Z.of_nat (S c) + 1) with (- Z.of_nat c) by lia.
    rewrite IH by lia. cbn [and_then].
    rewrite getitem_negative by lia. cbn [and_then].
    rewrite (skipn_nth_cons A (length A - S c)) by lia.
    replace (S (length A - S c)) with (length A - c)%nat by lia.
    rewrite zsum_cons. f_equal. lia.
Qed.

Lemma rec_soma_esqdir_beyond A n : forall (c depth : nat) k,
  Z.of_nat (length A) <= n -> k = n - Z.of_nat c -> (S c < depth)%nat ->
  rec_soma_esqdir depth k n A = Fails IndexError.
Proof.
  induction c as [|c IH]; intros [|[|d]] k Hn Hk Hd; try lia.
  - rewrite rec_soma_esqdir_step by lia.
    rewrite rec_soma_esqdir_empty by lia. cbn [and_then].
    replace k with n by lia. rewrite getitem_beyond by assumption.
    reflexivity.
  - rewrite rec_soma_esqdir_step by lia.
    rewrite (IH (S d) (k + 1)) by lia. reflexivity.
Qed.

Lemma rec_soma_esqdir_stack A n : forall (depth : nat) k,
  Z.of_nat depth <= n + 1 - k -> rec_soma_esqdir depth k n A = Fails RecursionError.
Proof.
  induction depth as [|d IH]; intros k H; [reflexivity|].
  rewrite rec_soma_esqdir_step by lia.
  rewrite IH by lia. reflexivity.
Qed.

(** ** [pisolg] *)

Lemma pisolg_test_spec n N : pisolg_test n N = (2 * n <=? N).
Proof.
  unfold pisolg_test. destruct (Z.leb_spec (2 * n) N) as [H|H].
  - apply QArith_base.Qle_bool_iff.
    unfold QArith_base.Qle, QArith_base.Qdiv, QArith_base.Qmult,
      QArith_base.Qinv, QArith_base.inject_Z. cbn. lia.
  - destruct (QArith_base.Qle_bool _ _) eqn:E; [|reflexivity].
    apply QArith_base.Qle_bool_iff in E.
    unfold QArith_base.Qle, QArith_base.Qdiv, QArith_base.Qmult,
      QArith_base.Qinv, QArith_base.inject_Z in E. cbn in E. lia.
Qed.

(** The loop keeps [n = 2 ^ i <= N] and stops at [i = floor(log2 N)]. *)
Lemma pisolg_loop_finishes N : forall (fuel : nat) n i,
  0 <= i -> n = 2 ^ i -> n <= N ->
  (Z.to_nat (Z.log2 N - i) < fuel)%nat ->
  pisolg_loop fuel N n i = Some (Z.log2 N).
Proof.
  induction fuel as [|f IH]; intros n i Hi Hn HN Hf; [lia|].
  assert (Hpos : 0 < N) by (pose proof (Z.pow_pos_nonneg 2 i); lia).
  assert (Hil : i <= Z.log2 N) by (apply Z.log2_le_pow2; lia).
  cbn [pisolg_loop]. rewrite pisolg_test_spec.
  destruct (Z.leb_spec (2 * n) N) as [H|H].
  - assert (Hn' : n * 2 = 2 ^ (i + 1)) by (rewrite Z.pow_add_r; lia).
    assert (i + 1 <= Z.log2 N) by (apply Z.log2_le_pow2; lia).
    apply IH; lia.
  - f_equal. symmetry. apply Z.log2_unique; [assumption|].
    rewrite Z.pow_succ_r by assumption. lia.
Qed.

Lemma pisolg_loop_running N : forall (fuel : nat) n i,
  0 <= i -> n = 2 ^ i -> 0 < N ->
  Z.of_nat fuel <= Z.log2 N - i ->
  pisolg_loop fuel N n i = None.
Proof.
  induction fuel as [|f IH]; intros n i Hi Hn HN Hf; [reflexivity|].
  cbn [pisolg_loop]. rewrite pisolg_test_spec.
  assert (H2 : 2 ^ (i + 1) <= N) by (apply Z.log2_le_pow2; lia).
  assert (Hn' : n * 2 = 2 ^ (i + 1)) by (rewrite Z.pow_add_r; lia).
  destruct (Z.leb_spec (2 * n) N) as [H|H]; [|lia].
  apply IH; lia.
Qed.

End ExerciseFacts.

Section ExerciseProperties.
Local Open Scope Z_scope.

(** X9. With [0 <= n < len(A)] and more than [n] frames available,
    [rec_soma(n, A)] returns [A[0] + ... + A[n]], the sum of the first
    [n + 1] elements. *)
Theorem rec_soma_sums_prefix (depth : nat) (n : Z) (A : list Z)
  (Hn : 0 <= n < Z.of_nat (length A)) (Hd : n < Z.of_nat depth) :
  rec_soma depth n A = Value (zsum (firstn (S (Z.to_nat n)) A)).
Proof.
  rewrite <- (Znat.Z2Nat.id n) at 1 by lia. apply rec_soma_prefix; lia.
Qed.

Lemma rec_soma_sums_prefix_witness :
  rec_soma 5 2 [10; 20; 30; 40] = Value 60.
Proof.
  apply (rec_soma_sums_prefix 5 2 [10; 20; 30; 40]); cbn; lia.
Defined.

(** X10. With [n >= len(A)], [n >= 0] and more than [n] frames available,
    [rec_soma(n, A)] raises [IndexError]; in particular on the empty list
    for every [n >= 0]. *)
Theorem rec_soma_index_error (depth : nat) (n : Z) (A : list Z)
  (Hn : Z.of_nat (length A) <= n) (Hd : n < Z.of_nat depth) :
  rec_soma depth n A = Fails IndexError.
Proof.
  rewrite <- (Znat.Z2Nat.id n) by lia. apply rec_soma_beyond; lia.
Qed.

Lemma rec_soma_index_error_witness :
  rec_soma 1 0 [] = Fails IndexError /\
  rec_soma 9 4 [10; 20; 30; 40] = Fails IndexError.
Proof.
  split.
  - apply (rec_soma_index_error 1 0 []); cbn; lia.
  - apply (rec_soma_index_error 9 4 [10; 20; 30; 40]); cbn; lia.
Defined.

(** X11. [rec_soma(n, A)] needs [n + 1] frames: with at most [n] frames
    available it raises [RecursionError], and for a negative [n] it does
    so whatever the number of frames. *)
Theorem rec_soma_recursion_error (depth : nat) (n : Z) (A : list Z)
  (H : n < 0 \/ Z.of_nat depth <= n) :
  rec_soma depth n A = Fails RecursionError.
Proof. apply rec_soma_stack. assumption. Qed.

Lemma rec_soma_recursion_error_witness :
  rec_soma 1000 (-1) [10; 20] = Fails RecursionError /\
  rec_soma 3 3 [10; 20; 30; 40] = Fails RecursionError.
Proof.
  split.
  - apply (rec_soma_recursion_error 1000 (-1) [10; 20]). left. lia.
  - apply (rec_soma_recursion_error 3 3 [10; 20; 30; 40]). right. cbn. lia.
Defined.

(** X12. With [0 <= k <= n + 1 <= len(A)] and more than [n + 1 - k]
    frames available, [rec_soma_esqdir(k, n, A)] returns
    [A[k] + ... + A[n]]; for [k = n + 1] that is 0, also on the empty
    list. *)
Theorem rec_soma_esqdir_sums_range (depth : nat) (k n : Z) (A : list Z)
  (Hk : 0 <= k <= n + 1) (Hn : n + 1 <= Z.of_nat (length A))
  (Hd : n + 1 - k < Z.of_nat depth) :
  rec_soma_esqdir depth k n A
  = Value (zsum (firstn (Z.to_nat (n + 1 - k)) (skipn (Z.to_nat k) A))).
Proof.
  pose proof (rec_soma_esqdir_range A (Z.to_nat (n + 1 - k)) (Z.to_nat k)
                depth) as H.
  rewrite !Znat.Z2Nat.id in H by lia.
  replace (k + (n + 1 - k) - 1) with n in H by lia.
  apply H; lia.
Qed.

Lemma rec_soma_esqdir_sums_range_witness :
  rec_soma_esqdir 4 1 3 [10; 20; 30; 40] = Value 90 /\
  rec_soma_esqdir 1 0 (-1) [] = Value 0.
Proof.
  split.
  - apply (rec_soma_esqdir_sums_range 4 1 3 [10; 20; 30; 40]); cbn; lia.
  - apply (rec_soma_esqdir_sums_range 1 0 (-1) []); cbn; lia.
Defined.

(** X13. With [0 <= n < len(A)] and more than [n + 1] frames available,
    the two exercises agree: [rec_soma_esqdir(0, n, A)] and
    [rec_soma(n, A)] return the same sum. *)
Theorem rec_soma_variants_agree (depth : nat) (n : Z) (A : list Z)
  (Hn : 0 <= n < Z.of_nat (length A)) (Hd : n + 1 < Z.of_nat depth) :
  rec_soma_esqdir depth 0 n A = rec_soma depth n A /\
  exists s, rec_soma depth n A = Value s.
Proof.
  pose proof (rec_soma_esqdir_range A (S (Z.to_nat n)) 0 depth) as H.
  pose proof (rec_soma_prefix A (Z.to_nat n) depth) as G.
  rewrite Znat.Z2Nat.id in G by lia.
  replace (Z.of_nat 0 + Z.of_nat (S (Z.to_nat n)) - 1) with n in H by lia.
  cbn [Z.of_nat skipn] in H.
  rewrite H, G by lia. split; [reflexivity|eauto].
Qed.

Lemma rec_soma_variants_agree_witness :
  rec_soma_esqdir 6 0 3 [10; 20; 30; 40] = rec_soma 6 3 [10; 20; 30; 40].
Proof.
  apply (rec_soma_variants_agree 6 3 [10; 20; 30; 40]); cbn; lia.
Defined.

(** X14. A negative [k] is not rejected: with [-len(A) <= k <= 0],
    [-1 <= n < len(A)] and enough frames, [rec_soma_esqdir(k, n, A)]
    returns the sum of [A[0..n]] plus the sum of the last [-k] elements,
    so elements are counted twice where the two ranges overlap. *)
Theorem rec_soma_esqdir_negative_start (depth : nat) (k n : Z) (A : list Z)
  (Hk : - Z.of_nat (length A) <= k <= 0)
  (Hn : -1 <= n < Z.of_nat (length A))
  (Hd : n + 1 - k < Z.of_nat depth) :
  rec_soma_esqdir depth k n A
  = Value (zsum (firstn (Z.to_nat (n + 1)) A)
           + zsum (skipn (length A - Z.to_nat (- k)) A)).
Proof.
  pose proof (rec_soma_esqdir_wrap A (Z.to_nat (n + 1)) (Z.to_nat (- k))
                depth) as H.
  rewrite !Znat.Z2Nat.id in H by lia.
  replace (- - k) with k in H by lia.
  replace (n + 1 - 1) with n in H by lia.
  apply H; lia.
Qed.

Lemma rec_soma_esqdir_negative_start_witness :
  rec_soma_esqdir 9 (-3) 2 [10; 20; 30] = Value 120.
Proof.
  apply (rec_soma_esqdir_negative_start 9 (-3) 2 [10; 20; 30]); cbn; lia.
Defined.

(** X15. With [k <= n], [n >= len(A)] and more than [n - k + 1] frames
    available, [rec_soma_esqdir(k, n, A)] raises [IndexError]: the first
    element it reads is [A[n]]. *)
Theorem rec_soma_esqdir_index_error (depth : nat) (k n : Z) (A : list Z)
  (Hk : k <= n) (Hn : Z.of_nat (length A) <= n)
  (Hd : n - k + 1 < Z.of_nat depth) :
  rec_soma_esqdir depth k n A = Fails IndexError.
Proof.
  apply (rec_soma_esqdir_beyond A n (Z.to_nat (n - k))); lia.
Qed.

Lemma rec_soma_esqdir_index_error_witness :
  rec_soma_esqdir 9 0 3 [10; 20; 30] = Fails IndexError.
Proof.
  apply (rec_soma_esqdir_index_error 9 0 3 [10; 20; 30]); cbn; lia.
Defined.

(** X16. [rec_soma_esqdir(k, n, A)] needs [n - k + 2] frames: with at
    most [n + 1 - k] frames available it raises [RecursionError]. *)
Theorem rec_soma_esqdir_recursion_error (depth : nat) (k n : Z) (A : list Z)
  (Hd : Z.of_nat depth <= n + 1 - k) :
  rec_soma_esqdir depth k n A = Fails RecursionError.
Proof. apply rec_soma_esqdir_stack. assumption. Qed.

Lemma rec_soma_esqdir_recursion_error_witness :
  rec_soma_esqdir 4 0 3 [10; 20; 30; 40] = Fails RecursionError.
Proof.
  apply (rec_soma_esqdir_recursion_error 4 0 3 [10; 20; 30; 40]). cbn. lia.
Defined.

(** X17. For an integer [0 < N < 2 ^ 53] (where [N/2] is exact in double
    precision) [pisolg(N)] returns the [i] with [2 ^ i <= N < 2 ^ (i + 1)],
    the floor of the base-2 logarithm, after exactly [i + 1] tests of the
    loop condition. *)
Theorem pisolg_floor_log2 (N : Z) (HN : 0 < N < 2 ^ 53) :
  exists i,
    0 <= i /\ 2 ^ i <= N < 2 ^ (i + 1) /\ i = Z.log2 N /\
    (forall fuel, i < Z.of_nat fuel -> pisolg fuel N = Some (Value i)) /\
    (forall fuel, Z.of_nat fuel <= i -> pisolg fuel N = None).
Proof.
  exists (Z.log2 N). pose proof (Z.log2_nonneg N) as H0.
  pose proof (Z.log2_spec N ltac:(lia)) as Hs.
  rewrite <- Z.add_1_r in Hs.
  split; [assumption|]. split; [assumption|]. split; [reflexivity|].
  split; intros fuel Hf; unfold pisolg;
    destruct (Z.leb_spec N 0) as [G|_]; try lia.
  - rewrite (pisolg_loop_finishes N fuel 1 0); try reflexivity; lia.
  - rewrite (pisolg_loop_running N fuel 1 0); try reflexivity; lia.
Qed.

Lemma pisolg_floor_log2_witness :
  exists i, 2 ^ i <= 1000 < 2 ^ (i + 1) /\
            pisolg 10 1000 = Some (Value i).
Proof.
  destruct (pisolg_floor_log2 1000) as (i & H0 & Hb & Hi & Hf & _).
  - cbn. lia.
  - exists i. split; [assumption|]. apply Hf. subst i. cbn. lia.
Defined.

(** X18. For an integer [N < 2 ^ 53], [pisolg(N)] raises its exception
    exactly when [N <= 0], and then before the loop is entered. *)
Theorem pisolg_raises_iff (fuel : nat) (N : Z) (e : pyexn)
  (HN : N < 2 ^ 53) :
  pisolg fuel N = Some (Fails e) <->
  (N <= 0 /\ e = Exception "Value has to be positive").
Proof.
  unfold pisolg. destruct (Z.leb_spec N 0) as [G|G].
  - split.
    + intro H. injection H as <-. split; [assumption|reflexivity].
    + intros [_ ->]. reflexivity.
  - split.
    + intro H. destruct (pisolg_loop fuel N 1 0); discriminate.
    + intros [H _]. lia.
Qed.

Lemma pisolg_raises_iff_witness :
  pisolg 0 (-4) = Some (Fails (Exception "Value has to be positive")).
Proof.
  apply (proj2 (pisolg_raises_iff 0 (-4) _ ltac:(cbn; lia))).
  split; [lia|reflexivity].
Defined.

End ExerciseProperties.
